(** * libadt: the singly linked list of [src/c/libadt/src/list.c]

    A shallow embedding of [struct ADT_sl_list] and its operations, and the
    properties of the list module stated in the specification.

    Memory is explicit: the nodes live in a finite map from addresses to
    [struct ADT_sl_node] values, the list header is a record next to it, and
    every C function is a computation in a state-and-error monad whose
    failures are the two ways a call can fail to return: a failed [assert]
    ([Abort]) and a dereference of [NULL] or of a freed block ([Undef]).
    [malloc] is an oracle: each allocating function receives the pointer
    [malloc] returned, [NULL] on failure. *)

From stdpp Require Import base option list gmap.
From Stdlib Require Import ZArith Lia Ascii.

Local Open Scope Z_scope.

(** ** Pointers and machine integers *)

(** A non-null address.  A pointer is [None] for [NULL]. *)
Definition loc := positive.
Definition ptr := option loc.

(** [unsigned int] is 32 bits wide on the ABIs the Makefile builds for;
    arithmetic on it is modulo [UINT_MAX + 1]. *)
Definition UINT_MAX : Z := 4294967295.
Definition uint (z : Z) : Z := z mod (UINT_MAX + 1).

(** ** Outcomes of a call *)

Inductive outcome (A : Type) : Type :=
| Ok (a : A)      (* the call returns *)
| Abort           (* a failed assert: the process is terminated *)
| Undef.          (* undefined behaviour: NULL or dangling dereference *)
Arguments Ok {A} a.
Arguments Abort {A}.
Arguments Undef {A}.

Section List.
Context {D : Type}.   (* what a [void *data] refers to; never inspected *)

(** ** list.h *)

Record ADT_sl_node : Type := Node { data : D; next : ptr }.

Record ADT_sl_list : Type := List { head : ptr; tail : ptr; len : Z }.

(** The memory a call works on: the allocated nodes and the list header
    that the [list] argument points to. *)
Record mem : Type := Mem { nodes : gmap loc ADT_sl_node; lst : ADT_sl_list }.

(** ** The monad of list.c *)

Definition M (A : Type) : Type := mem → outcome (A * mem).

#[global] Instance M_ret : MRet M := λ A a s, Ok (a, s).
#[global] Instance M_bind : MBind M := λ A B f m s,
  match m s with
  | Ok (a, s') => f a s'
  | Abort => Abort
  | Undef => Undef
  end.

(** [assert(b)] *)
Definition assert (b : bool) : M unit :=
  λ s, if b then Ok (tt, s) else Abort.

(** Reads and writes of the header fields. *)
Definition get_head : M ptr := λ s, Ok (head (lst s), s).
Definition get_tail : M ptr := λ s, Ok (tail (lst s), s).
Definition get_len : M Z := λ s, Ok (len (lst s), s).
Definition set_head (p : ptr) : M unit :=
  λ s, Ok (tt, Mem (nodes s) (List p (tail (lst s)) (len (lst s)))).
Definition set_tail (p : ptr) : M unit :=
  λ s, Ok (tt, Mem (nodes s) (List (head (lst s)) p (len (lst s)))).
Definition set_len (n : Z) : M unit :=
  λ s, Ok (tt, Mem (nodes s) (List (head (lst s)) (tail (lst s)) (uint n))).

(** [*p] for a node pointer: defined only on an allocated node. *)
Definition load (p : ptr) : M ADT_sl_node :=
  λ s, match p with
       | None => Undef
       | Some l => match nodes s !! l with
                   | Some n => Ok (n, s)
                   | None => Undef
                   end
       end.

(** [p->next = q] *)
Definition store_next (p : ptr) (q : ptr) : M unit :=
  λ s, match p with
       | None => Undef
       | Some l => match nodes s !! l with
                   | Some n =>
                       Ok (tt, Mem (<[l := Node (data n) q]> (nodes s)) (lst s))
                   | None => Undef
                   end
       end.

(** [node->data = d; node->next = q] on the block [malloc] just returned:
    after the two stores the block holds exactly this node. *)
Definition init_node (l : loc) (d : D) (q : ptr) : M unit :=
  λ s, Ok (tt, Mem (<[l := Node d q]> (nodes s)) (lst s)).

(** [free(p)]: [free(NULL)] does nothing, a block is freed once. *)
Definition free (p : ptr) : M unit :=
  λ s, match p with
       | None => Ok (tt, s)
       | Some l => match nodes s !! l with
                   | Some _ => Ok (tt, Mem (delete l (nodes s)) (lst s))
                   | None => Undef
                   end
       end.

(** ** list.c *)

Definition ADT_sl_list_length : M Z := get_len.

Definition ADT_sl_list_init : M unit :=
  set_head None;;
  set_tail None;;
  set_len 0.

(** [malloc_result] is what [malloc(sizeof(struct ADT_sl_node))] returned. *)
Definition ADT_sl_list_push (malloc_result : ptr) (d : D) : M Z :=
  match malloc_result with
  | None => mret (-1)
  | Some node =>
      n ← ADT_sl_list_length;
      (if n =? 0 then set_tail (Some node) else mret tt);;
      h ← get_head;
      init_node node d h;;
      set_head (Some node);;
      n ← get_len;
      set_len (n + 1);;
      mret 0
  end.

(** The value stored through [data] is the result. *)
Definition ADT_sl_list_pop : M D :=
  n ← ADT_sl_list_length;
  assert (negb (n =? 0));;
  node ← get_head;
  h ← get_head;
  hd ← load h;
  nd ← load node;
  set_head (next nd);;
  n ← get_len;
  set_len (n - 1);;
  free node;;
  mret (data hd).

Definition ADT_sl_list_append (malloc_result : ptr) (d : D) : M Z :=
  n ← ADT_sl_list_length;
  if n =? 0 then
    (* here [malloc_result] is the result of the [malloc] inside push *)
    ADT_sl_list_push malloc_result d;;
    mret 0
  else
    match malloc_result with
    | None => mret (-1)
    | Some node =>
        init_node node d None;;
        t ← get_tail;
        store_next t (Some node);;
        set_tail (Some node);;
        n ← get_len;
        set_len (n + 1);;
        mret 0
    end.

Definition ADT_sl_list_insert_after (malloc_result : ptr) (loc : ptr) (d : D)
  : M Z :=
  match malloc_result with
  | None => mret (-1)
  | Some node =>
      t ← get_tail;
      (if bool_decide (loc = t) then set_tail (Some node) else mret tt);;
      ln ← load loc;
      init_node node d (next ln);;
      store_next loc (Some node);;
      n ← get_len;
      set_len (n + 1);;
      mret 0
  end.

Definition ADT_sl_list_remove_after (loc : ptr) : M D :=
  t ← get_tail;
  assert (negb (bool_decide (loc = t)));;
  ln ← load loc;
  let p := next ln in
  ln ← load loc;
  sn ← load (next ln);
  ln' ← load loc;
  sn' ← load (next ln');
  store_next loc (next sn');;
  free p;;
  n ← get_len;
  set_len (n - 1);;
  mret (data sn).

(** [destroy] is the caller's destructor.  It acts on the part of the
    world outside the list (the data blocks), of type [W].  The loop is
    driven by [fuel]; [None] means the fuel ran out before the loop ended. *)
Fixpoint destroy_loop {W : Type} (destroy : D → W → W) (fuel : nat)
  (s : mem) (w : W) : option (outcome (mem * W)) :=
  match ADT_sl_list_length s with
  | Ok (n, s1) =>
      if n =? 0 then Some (Ok (s1, w))
      else match fuel with
           | O => None
           | S fuel' =>
               match ADT_sl_list_pop s1 with
               | Ok (d, s2) => destroy_loop destroy fuel' s2 (destroy d w)
               | Abort => Some Abort
               | Undef => Some Undef
               end
           end
  | Abort => Some Abort
  | Undef => Some Undef
  end.

Definition ADT_sl_list_destroy {W : Type} (destroy : D → W → W) (fuel : nat)
  (s : mem) (w : W) : option (outcome (mem * W)) :=
  match destroy_loop destroy fuel s w with
  | Some (Ok (s1, w1)) =>
      match (set_head None;; set_tail None) s1 with
      | Ok (_, s2) => Some (Ok (s2, w1))
      | Abort => Some Abort
      | Undef => Some Undef
      end
  | r => r
  end.

(** ** Representation *)

(** The address of the first node of a sequence of nodes. *)
Definition entry (ls : list (loc * D)) : ptr :=
  match ls with
  | [] => None
  | (l, _) :: _ => Some l
  end.

(** [lseg h ls]: in the heap [h] the nodes at the addresses of [ls] hold the
    data of [ls] and are linked in this order, the last one to [NULL]. *)
Fixpoint lseg (h : gmap loc ADT_sl_node) (ls : list (loc * D)) : Prop :=
  match ls with
  | [] => True
  | (l, d) :: ls' => h !! l = Some (Node d (entry ls')) ∧ lseg h ls'
  end.

(** Invariant (a): [head] starts a chain of exactly [len] nodes, and [len]
    is a value of [unsigned int]. *)
Record chain (s : mem) (ls : list (loc * D)) : Prop := Chain {
  chain_head : head (lst s) = entry ls;
  chain_nodes : lseg (nodes s) ls;
  chain_len : len (lst s) = Z.of_nat (length ls);
  chain_range : Z.of_nat (length ls) ≤ UINT_MAX
}.

(** The list invariant: the chain, and [tail] is its last node, which gives
    (c), (d) and (e).  Nothing is said about [tail] when the chain is
    empty. *)
Record repr (s : mem) (ls : list (loc * D)) : Prop := Repr {
  repr_chain : chain s ls;
  repr_tail : ls ≠ [] → tail (lst s) = fst <$> last ls
}.

(** Head-to-tail walk along the [next] fields, at most [fuel] nodes. *)
Fixpoint walk (fuel : nat) (h : gmap loc ADT_sl_node) (p : ptr)
  : option (list (loc * D)) :=
  match p with
  | None => Some []
  | Some l =>
      match fuel with
      | O => None
      | S fuel' =>
          match h !! l with
          | Some n =>
              match walk fuel' h (next n) with
              | Some ls => Some ((l, data n) :: ls)
              | None => None
              end
          | None => None
          end
      end
  end.

(** The stored data, head to tail. *)
Definition contents (s : mem) : option (list D) :=
  match walk (Z.to_nat (len (lst s))) (nodes s) (head (lst s)) with
  | Some ls => Some ls.*2
  | None => None
  end.

(** Addresses that are free before a call and are not the one [malloc]
    returned are free after it. *)
Definition keeps_free (s s' : mem) (l : loc) : Prop :=
  ∀ l', nodes s !! l' = None → l' ≠ l → nodes s' !! l' = None.

(** ** Sequences of calls *)

(** One call per element, in order, collecting the return values. *)
Fixpoint each {A : Type} (f : A → M Z) (xs : list A) : M (list Z) :=
  match xs with
  | [] => mret []
  | x :: xs' => r ← f x; rs ← each f xs'; mret (r :: rs)
  end.

(** Pushes (appends) of the data [x.2], where [malloc] returns the block
    [x.1] for it. *)
Definition pushes (xs : list (loc * D)) : M (list Z) :=
  each (λ x, ADT_sl_list_push (Some x.1) x.2) xs.

Definition appends (xs : list (loc * D)) : M (list Z) :=
  each (λ x, ADT_sl_list_append (Some x.1) x.2) xs.

(** ** The interface as a whole *)

Inductive call {W : Type} : Type :=
| Init
| Destroy (destroy : D → W → W) (fuel : nat)
| Push (malloc_result : ptr) (d : D)
| Pop
| Append (malloc_result : ptr) (d : D)
| InsertAfter (malloc_result : ptr) (loc : ptr) (d : D)
| RemoveAfter (loc : ptr)
| Length.

Definition state_after {A W : Type} (r : outcome (A * mem)) (w : W)
  : option (outcome (mem * W)) :=
  match r with
  | Ok (_, s) => Some (Ok (s, w))
  | Abort => Some Abort
  | Undef => Some Undef
  end.

Definition exec {W : Type} (c : @call W) (s : mem) (w : W)
  : option (outcome (mem * W)) :=
  match c with
  | Init => state_after (ADT_sl_list_init s) w
  | Destroy destroy fuel => ADT_sl_list_destroy destroy fuel s w
  | Push m d => state_after (ADT_sl_list_push m d s) w
  | Pop => state_after (ADT_sl_list_pop s) w
  | Append m d => state_after (ADT_sl_list_append m d s) w
  | InsertAfter m p d => state_after (ADT_sl_list_insert_after m p d s) w
  | RemoveAfter p => state_after (ADT_sl_list_remove_after p s) w
  | Length => state_after (ADT_sl_list_length s) w
  end.

(** [malloc] returns [NULL] or a block that is not in use. *)
Definition fresh (m : ptr) (s : mem) : Prop :=
  match m with
  | None => True
  | Some l => nodes s !! l = None
  end.

(** The count can take the node that [malloc] returned. *)
Definition room (m : ptr) (s : mem) : Prop :=
  match m with
  | None => True
  | Some _ => len (lst s) < UINT_MAX
  end.

(** [p] points to a node of the list. *)
Definition member (p : ptr) (ls : list (loc * D)) : Prop :=
  match p with
  | None => False
  | Some x => x ∈ ls.*1
  end.

(** What the comments of list.c require of the arguments of a call. *)
Definition allowed {W : Type} (c : @call W) (s : mem) (ls : list (loc * D))
  : Prop :=
  match c with
  | Push m _ | Append m _ => fresh m s ∧ room m s
  | InsertAfter m p _ => fresh m s ∧ room m s ∧ member p ls
  | RemoveAfter p => member p ls
  | _ => True
  end.

(** ** Lists in memory, for examples *)

(** The heap that holds exactly the nodes [ls], linked in this order. *)
Fixpoint heap_of (ls : list (loc * D)) : gmap loc ADT_sl_node :=
  match ls with
  | [] => ∅
  | (l, d) :: ls' => <[l := Node d (entry ls')]> (heap_of ls')
  end.

Definition list_of (ls : list (loc * D)) : mem :=
  Mem (heap_of ls) (List (entry ls) (fst <$> last ls) (Z.of_nat (length ls))).

(** [n] nodes at the addresses 1, 2, ..., [n], each holding [d]. *)
Definition numbered (n : nat) (d : D) : list (loc * D) :=
  (λ i, (Pos.of_succ_nat i, d)) <$> seq 0 n.

End List.

(** ** Concrete lists, with [char] data as in the tests *)

Definition empty : @mem ascii := Mem ∅ (List None None 0).
Definition one : @mem ascii := list_of [(1%positive, "a"%char)].
Definition two : @mem ascii :=
  list_of [(1%positive, "a"%char); (2%positive, "b"%char)].

Definition three : @mem ascii :=
  list_of [(1%positive, "a"%char); (2%positive, "b"%char);
           (3%positive, "c"%char)].

(** A list of [UINT_MAX] nodes, at the addresses 1 to [UINT_MAX], and the
    address after them. *)
Definition full_count : nat := Z.to_nat UINT_MAX.
Definition full_nodes : list (loc * ascii) := numbered full_count "a"%char.
Definition full : @mem ascii := list_of full_nodes.
Definition spare : loc := Pos.of_succ_nat full_count.

(** One node more than the count can hold. *)
Definition too_many : list (loc * ascii) := numbered (S full_count) "a"%char.

(** * The rest of the interface *)

Section Interface.
Context {D : Type}.

(** ** list.h: the queue macros *)



(** [n] calls of [pop], collecting the data they return. *)
Fixpoint pops (n : nat) : M (list D) :=
  match n with
  | O => mret []
  | S n' => d ← ADT_sl_list_pop; ds ← pops n'; mret (d :: ds)
  end.

(** ** Calls with their results *)

(** A call of one of the functions that work on a list in use.  The calls
    that allocate carry what [malloc] returns to them; positions are
    addresses of nodes. *)
Inductive op : Type :=
| OpPush (malloc_result : ptr) (d : D)
| OpPop
| OpAppend (malloc_result : ptr) (d : D)
| OpInsertAfter (malloc_result : ptr) (x : loc) (d : D)
| OpRemoveAfter (x : loc)
| OpLength.

(** What a call hands back: an [int] or [unsigned int], or the data stored
    through the [data] argument. *)
Inductive result : Type :=
| RetInt (z : Z)
| RetData (d : D).

Definition perform (o : op) : M result :=
  match o with
  | OpPush m d => z ← ADT_sl_list_push m d; mret (RetInt z)
  | OpPop => d ← ADT_sl_list_pop; mret (RetData d)
  | OpAppend m d => z ← ADT_sl_list_append m d; mret (RetInt z)
  | OpInsertAfter m x d =>
      z ← ADT_sl_list_insert_after m (Some x) d; mret (RetInt z)
  | OpRemoveAfter x => d ← ADT_sl_list_remove_after (Some x); mret (RetData d)
  | OpLength => z ← ADT_sl_list_length; mret (RetInt z)
  end.

Fixpoint perform_all (os : list op) : M (list result) :=
  match os with
  | [] => mret []
  | o :: os' => r ← perform o; rs ← perform_all os'; mret (r :: rs)
  end.

(** ** The sequence of nodes a call leaves *)

(** [n] put in right after the node at [x]. *)
Fixpoint insert_after_seq (x : loc) (n : loc * D) (ls : list (loc * D))
  : list (loc * D) :=
  match ls with
  | [] => []
  | y :: ls' =>
      if decide (y.1 = x) then y :: n :: ls'
      else y :: insert_after_seq x n ls'
  end.

(** The node after the one at [x] taken out; [None] when there is none. *)
Fixpoint remove_after_seq (x : loc) (ls : list (loc * D))
  : option (D * list (loc * D)) :=
  match ls with
  | [] => None
  | y :: ls' =>
      if decide (y.1 = x) then
        match ls' with
        | [] => None
        | z :: ls'' => Some (z.2, y :: ls'')
        end
      else
        match remove_after_seq x ls' with
        | Some (d, r) => Some (d, y :: r)
        | None => None
        end
  end.

(** The result of a call and the nodes it leaves, on the sequence of nodes
    [ls]; [None] where the call aborts.  A failed [malloc] leaves the nodes
    as they are and gives -1, except in [append] on the empty list, which
    gives 0. *)
Definition seq_step (o : op) (ls : list (loc * D))
  : option (result * list (loc * D)) :=
  match o with
  | OpPush (Some l) d => Some (RetInt 0, (l, d) :: ls)
  | OpPush None _ => Some (RetInt (-1), ls)
  | OpPop =>
      match ls with
      | [] => None
      | y :: ls' => Some (RetData y.2, ls')
      end
  | OpAppend (Some l) d => Some (RetInt 0, ls ++ [(l, d)])
  | OpAppend None _ =>
      Some (RetInt (match ls with [] => 0 | _ :: _ => -1 end), ls)
  | OpInsertAfter (Some l) x d => Some (RetInt 0, insert_after_seq x (l, d) ls)
  | OpInsertAfter None _ _ => Some (RetInt (-1), ls)
  | OpRemoveAfter x =>
      match remove_after_seq x ls with
      | Some (d, ls') => Some (RetData d, ls')
      | None => None
      end
  | OpLength => Some (RetInt (Z.of_nat (length ls)), ls)
  end.

Fixpoint seq_steps (os : list op) (ls : list (loc * D))
  : option (list result * list (loc * D)) :=
  match os with
  | [] => Some ([], ls)
  | o :: os' =>
      match seq_step o ls with
      | Some (r, ls1) =>
          match seq_steps os' ls1 with
          | Some (rs, ls2) => Some (r :: rs, ls2)
          | None => None
          end
      | None => None
      end
  end.

(** The list owns the heap outside [F]: its invariant holds and every
    address that is neither a node of the list nor in [F] is free. *)
Definition owned (F : gset loc) (s : mem) (ls : list (loc * D)) : Prop :=
  repr s ls ∧ ∀ l, l ∉ ls.*1 → l ∉ F → nodes s !! l = None.

(** [malloc] returns [NULL], or a block that is free, while the count has
    room for one more node. *)
Definition can_alloc (F : gset loc) (m : ptr) (ls : list (loc * D)) : Prop :=
  match m with
  | None => True
  | Some l => (l ∉ ls.*1) ∧ (l ∉ F) ∧ Z.of_nat (length ls) < UINT_MAX
  end.

(** The arguments list.c asks for: positions are nodes of the list, and
    [remove_after] does not take out the tail node (it would leave [tail]
    behind). *)
Definition legal (F : gset loc) (o : op) (ls : list (loc * D)) : Prop :=
  match o with
  | OpPush m _ | OpAppend m _ => can_alloc F m ls
  | OpInsertAfter m x _ => can_alloc F m ls ∧ x ∈ ls.*1
  | OpRemoveAfter x =>
      x ∈ ls.*1 ∧
      match remove_after_seq x ls with
      | Some (_, ls') => fst <$> last ls' = fst <$> last ls
      | None => True
      end
  | OpPop | OpLength => True
  end.

Fixpoint legal_all (F : gset loc) (os : list op) (ls : list (loc * D))
  : Prop :=
  match os with
  | [] => True
  | o :: os' =>
      legal F o ls ∧
      match seq_step o ls with
      | Some (_, ls') => legal_all F os' ls'
      | None => True
      end
  end.

(** ** The calls of a stack or queue user, on the data alone *)







End Interface.

(** * Properties *)

(** Unfolds a call down to the reads and writes it makes. *)
Ltac run_call :=
  unfold ADT_sl_list_init, ADT_sl_list_push, ADT_sl_list_pop,
    ADT_sl_list_append, ADT_sl_list_insert_after, ADT_sl_list_remove_after,
    ADT_sl_list_length, assert, load, store_next, init_node, free,
    get_head, get_tail, get_len, set_head, set_tail, set_len,
    mbind, M_bind, mret, M_ret;
  cbn -[uint].

Section Facts.
Context {D : Type}.
Implicit Types (h : gmap loc (@ADT_sl_node D)) (ls : list (loc * D)).
Implicit Types (s : @mem D) (l : loc) (d : D) (p : ptr).

(** ** Arithmetic of [unsigned int] *)

Lemma uint_small z : 0 ≤ z ≤ UINT_MAX → uint z = z.
Proof. intros Hz. unfold uint. apply Z.mod_small. unfold UINT_MAX in *. lia. Qed.

(** ** List segments *)

Lemma lseg_lookup h ls l :
  lseg h ls → l ∈ ls.*1 → is_Some (h !! l).
Proof.
  induction ls as [|[l' d'] ls IH]; simpl.
  - intros _ Hin. by apply elem_of_nil in Hin.
  - intros [Hl Hls] Hin. apply elem_of_cons in Hin as [->|Hin]; eauto.
Qed.

Lemma lseg_fresh h ls l : lseg h ls → h !! l = None → l ∉ ls.*1.
Proof.
  intros Hls Hl Hin. destruct (lseg_lookup h ls l Hls Hin) as [n Hn]. congruence.
Qed.

(** A chain is determined by its first address. *)
Lemma lseg_inj h ls1 ls2 :
  lseg h ls1 → lseg h ls2 → entry ls1 = entry ls2 → ls1 = ls2.
Proof.
  revert ls2. induction ls1 as [|[l1 d1] ls1 IH]; intros [|[l2 d2] ls2]; simpl;
    try done.
  intros [H1 Hls1] [H2 Hls2] [= ->]. rewrite H1 in H2. injection H2 as -> He.
  f_equal. by apply IH.
Qed.

Lemma lseg_app_r h ls1 ls2 : lseg h (ls1 ++ ls2) → lseg h ls2.
Proof. induction ls1 as [|[l d] ls1 IH]; simpl; [done | intros [_ ?]; auto]. Qed.

(** A chain that ends in [NULL] visits no node twice. *)
Lemma lseg_NoDup h ls : lseg h ls → NoDup ls.*1.
Proof.
  induction ls as [|[l d] ls IH]; simpl; [intros; constructor|].
  intros [Hl Hls]. constructor; [|by apply IH].
  intros Hin. apply list_elem_of_fmap in Hin as ([l' d'] & Heq & Hin).
  simpl in Heq. subst l'.
  apply list_elem_of_split in Hin as (a & b & ->).
  pose proof (lseg_app_r _ _ _ Hls) as Hb. simpl in Hb. destruct Hb as [Hl' Hb].
  rewrite Hl in Hl'. injection Hl' as Hd He. subst d'.
  assert (a ++ (l, d) :: b = b) as Habs by (by apply (lseg_inj h)).
  apply (f_equal length) in Habs. rewrite length_app in Habs. simpl in Habs.
  apply (f_equal Z.of_nat) in Habs. lia.
Qed.

(** Frame lemmas: a change at an address outside the chain keeps it. *)
Lemma lseg_insert_ne h ls l n : l ∉ ls.*1 → lseg h ls → lseg (<[l := n]> h) ls.
Proof.
  induction ls as [|[l' d'] ls IH]; simpl; [done|].
  intros Hnin [Hl Hls]. apply not_elem_of_cons in Hnin as [Hne Hnin].
  split; [by rewrite lookup_insert_ne | by apply IH].
Qed.

Lemma lseg_delete_ne h ls l : l ∉ ls.*1 → lseg h ls → lseg (delete l h) ls.
Proof.
  induction ls as [|[l' d'] ls IH]; simpl; [done|].
  intros Hnin [Hl Hls]. apply not_elem_of_cons in Hnin as [Hne Hnin].
  split; [by rewrite lookup_delete_ne | by apply IH].
Qed.

(** The walk computes the chain. *)
Lemma walk_lseg h ls fuel :
  lseg h ls → (length ls ≤ fuel)%nat → walk fuel h (entry ls) = Some ls.
Proof.
  revert fuel. induction ls as [|[l d] ls IH]; intros fuel; simpl.
  - by destruct fuel.
  - intros [Hl Hls] Hf. destruct fuel as [|fuel]; [lia|]. simpl.
    rewrite Hl. simpl. rewrite IH; [done | done | lia].
Qed.

Lemma chain_contents s ls : chain s ls → contents s = Some ls.*2.
Proof.
  intros [Hh Hn Hl Hr]. unfold contents. rewrite Hh, Hl, Nat2Z.id.
  by rewrite walk_lseg.
Qed.

(** ** What each call computes *)

Lemma init_eq s :
  ADT_sl_list_init s = Ok (tt, Mem (nodes s) (List None None 0)).
Proof. reflexivity. Qed.

Lemma push_fail_eq s d : ADT_sl_list_push None d s = Ok (-1, s).
Proof. reflexivity. Qed.

Lemma push_eq s l d :
  ADT_sl_list_push (Some l) d s =
  Ok (0, Mem (<[l := Node d (head (lst s))]> (nodes s))
             (List (Some l)
                   (if len (lst s) =? 0 then Some l else tail (lst s))
                   (uint (len (lst s) + 1)))).
Proof. destruct s as [h [hd tl n]]. run_call. by destruct (n =? 0). Qed.

Lemma pop_abort_iff s : ADT_sl_list_pop s = Abort ↔ len (lst s) = 0.
Proof.
  destruct s as [h [hd tl n]]. run_call. destruct (Z.eqb_spec n 0) as [->|Hn].
  - done.
  - cbn -[uint]. split; [|done]. destruct hd as [l|]; [|done].
    destruct (h !! l) as [nd|] eqn:E; cbn -[uint]; [|done].
    rewrite E. cbn -[uint]. by rewrite E.
Qed.

Lemma pop_eq s l nd :
  len (lst s) ≠ 0 → head (lst s) = Some l → nodes s !! l = Some nd →
  ADT_sl_list_pop s =
  Ok (data nd, Mem (delete l (nodes s))
                   (List (next nd) (tail (lst s)) (uint (len (lst s) - 1)))).
Proof.
  destruct s as [h [hd tl n]]. cbn. intros Hn -> E. run_call.
  destruct (Z.eqb_spec n 0) as [->|_]; [done|]. cbn -[uint].
  rewrite E. cbn -[uint]. rewrite E. cbn -[uint]. by rewrite E.
Qed.

Lemma append_empty_eq s m d :
  len (lst s) = 0 →
  ADT_sl_list_append m d s =
  match ADT_sl_list_push m d s with
  | Ok (_, s') => Ok (0, s')
  | Abort => Abort
  | Undef => Undef
  end.
Proof.
  destruct s as [h [hd tl n]]. cbn. intros ->.
  unfold ADT_sl_list_append, ADT_sl_list_length, get_len, mbind, M_bind.
  cbn. by destruct (ADT_sl_list_push m d _) as [[r s']| |].
Qed.

Lemma append_fail_eq s d :
  len (lst s) ≠ 0 → ADT_sl_list_append None d s = Ok (-1, s).
Proof.
  destruct s as [h [hd tl n]]. cbn. intros Hn. run_call.
  by destruct (Z.eqb_spec n 0).
Qed.

Lemma append_eq s l d t tn :
  len (lst s) ≠ 0 → tail (lst s) = Some t → nodes s !! t = Some tn →
  nodes s !! l = None →
  ADT_sl_list_append (Some l) d s =
  Ok (0, Mem (<[t := Node (data tn) (Some l)]> (<[l := Node d None]> (nodes s)))
             (List (head (lst s)) (Some l) (uint (len (lst s) + 1)))).
Proof.
  destruct s as [h [hd tl n]]. cbn. intros Hn -> Et El. run_call.
  destruct (Z.eqb_spec n 0) as [->|_]; [done|]. cbn -[uint].
  rewrite lookup_insert_ne by congruence. by rewrite Et.
Qed.

Lemma insert_after_fail_eq s p d :
  ADT_sl_list_insert_after None p d s = Ok (-1, s).
Proof. reflexivity. Qed.

Lemma insert_after_eq s l x xn d :
  nodes s !! x = Some xn → nodes s !! l = None →
  ADT_sl_list_insert_after (Some l) (Some x) d s =
  Ok (0, Mem (<[x := Node (data xn) (Some l)]>
                (<[l := Node d (next xn)]> (nodes s)))
             (List (head (lst s))
                   (if bool_decide (Some x = tail (lst s)) then Some l
                    else tail (lst s))
                   (uint (len (lst s) + 1)))).
Proof.
  destruct s as [h [hd tl n]]. cbn. intros Ex El. run_call.
  destruct (decide (Some x = tl));
    [rewrite !bool_decide_eq_true_2 by done
    |rewrite !bool_decide_eq_false_2 by done];
    cbn -[uint]; rewrite Ex; cbn -[uint];
    (rewrite lookup_insert_ne by congruence); rewrite Ex; reflexivity.
Qed.

Lemma remove_after_eq s x xn y yn :
  Some x ≠ tail (lst s) → nodes s !! x = Some xn → next xn = Some y →
  nodes s !! y = Some yn →
  ADT_sl_list_remove_after (Some x) s =
  Ok (data yn, Mem (delete y (<[x := Node (data xn) (next yn)]> (nodes s)))
                   (List (head (lst s)) (tail (lst s))
                         (uint (len (lst s) - 1)))).
Proof.
  destruct s as [h [hd tl n]]. cbn. intros Hne Ex Enext Ey. run_call.
  rewrite bool_decide_eq_false_2 by done. cbn -[uint].
  rewrite Ex. cbn -[uint]. rewrite Ex. cbn -[uint]. rewrite Enext, Ey.
  cbn -[uint]. rewrite Ex. cbn -[uint]. rewrite Enext, Ey. cbn -[uint].
  rewrite Ex. cbn -[uint].
  destruct (decide (x = y)) as [->|Hxy].
  - by rewrite lookup_insert_eq.
  - rewrite lookup_insert_ne by done. by rewrite Ey.
Qed.

(** What a returning [remove_after] did to the header. *)
Lemma remove_after_inv s p r s' :
  ADT_sl_list_remove_after p s = Ok (r, s') →
  p ≠ tail (lst s) ∧ head (lst s') = head (lst s) ∧
  tail (lst s') = tail (lst s) ∧ len (lst s') = uint (len (lst s) - 1).
Proof.
  destruct s as [h [hd tl n]]. run_call.
  destruct (decide (p = tl)) as [->|Hne].
  - by rewrite bool_decide_eq_true_2.
  - rewrite bool_decide_eq_false_2 by done. cbn -[uint].
    destruct p as [x|]; [|done].
    destruct (h !! x) as [xn|] eqn:Ex; cbn -[uint]; [|done].
    rewrite Ex; cbn -[uint].
    destruct (next xn) as [y|] eqn:En; [|done].
    destruct (h !! y) as [yn|] eqn:Ey; cbn -[uint]; [|done].
    repeat (rewrite ?Ex, ?En, ?Ey; progress cbn -[uint]).
    match goal with
    | |- context [<[x:=?v]> h !! y] => destruct (<[x:=v]> h !! y) as [?|]
    end; cbn -[uint]; [|done].
    intros H. by simplify_eq.
Qed.

(** The value a returning [insert_after] returns. *)
Lemma insert_after_ret s m p d r s' :
  ADT_sl_list_insert_after m p d s = Ok (r, s') →
  m = None ∧ r = -1 ∧ s' = s ∨ is_Some m ∧ r = 0.
Proof.
  destruct m as [l|]; [|intros [= <- <-]; by left].
  intros Hrun. right. split; [done|]. revert Hrun.
  destruct s as [h [hd tl n]]. run_call.
  destruct (decide (p = tl));
    [rewrite bool_decide_eq_true_2 by done
    |rewrite bool_decide_eq_false_2 by done];
    cbn -[uint]; (destruct p as [x|]; [|done]);
    (destruct (h !! x) as [xn|]; cbn -[uint]; [|done]);
    (match goal with
     | |- context [<[l:=?v]> h !! x] => destruct (<[l:=v]> h !! x)
     end; cbn -[uint]; [|done]);
    by intros [= <- _].
Qed.

(** ** The invariant under each call *)

Lemma fmap_rev {A B} (f : A → B) (xs : list A) : f <$> rev xs = rev (f <$> xs).
Proof. induction xs as [|x xs IH]; cbn; [done|]. by rewrite fmap_app, IH. Qed.

Lemma init_repr s : repr (Mem (nodes s) (List None None 0)) [].
Proof. split; [|done]. by split. Qed.

Lemma push_repr s ls l d :
  repr s ls → nodes s !! l = None → Z.of_nat (length ls) < UINT_MAX →
  ∃ s', ADT_sl_list_push (Some l) d s = Ok (0, s') ∧ repr s' ((l, d) :: ls) ∧
        keeps_free s s' l.
Proof.
  intros [[Hh Hn Hl Hr] Ht] Hfresh Hlt. eexists. split; [apply push_eq|].
  split; [split; [split|] |]; cbn -[uint].
  - done.
  - rewrite Hh, lookup_insert_eq. split; [done|].
    apply lseg_insert_ne; [by eapply lseg_fresh | done].
  - rewrite Hl, uint_small by lia. lia.
  - lia.
  - intros _. destruct ls as [|x ls].
    + by rewrite Hl.
    + rewrite Hl. cbn [length]. destruct (Z.eqb_spec (Z.of_nat (S (length ls))) 0);
        [lia|]. by rewrite Ht.
  - intros l' Hl' Hne. cbn. by rewrite lookup_insert_ne.
Qed.

Lemma pop_chain s l d ls :
  chain s ((l, d) :: ls) →
  ∃ s', ADT_sl_list_pop s = Ok (d, s') ∧ chain s' ls ∧
        nodes s' = delete l (nodes s) ∧ tail (lst s') = tail (lst s) ∧
        len (lst s') = len (lst s) - 1.
Proof.
  intros [Hh Hn Hl Hr]. cbn in Hh, Hn, Hl, Hr. destruct Hn as [Hnl Hn].
  pose proof (pop_eq s l (Node d (entry ls))) as Hp. cbn -[uint] in Hp.
  eexists. split; [apply Hp; [lia | done | done] |].
  assert (uint (len (lst s) - 1) = len (lst s) - 1) as Hu
    by (apply uint_small; lia).
  cbn -[uint]. split; [split|]; cbn -[uint]; try done.
  - apply lseg_delete_ne; [|done].
    pose proof (lseg_NoDup (nodes s) ((l, d) :: ls)) as Hnd. cbn in Hnd.
    by apply NoDup_cons_1_1, Hnd.
  - lia.
  - lia.
Qed.

(** Linking a new node [l] in after the node [x] of a chain. *)
Lemma lseg_splice h ls1 x dx ls2 l d :
  lseg h (ls1 ++ (x, dx) :: ls2) → h !! l = None →
  lseg (<[x := Node dx (Some l)]> (<[l := Node d (entry ls2)]> h))
       (ls1 ++ (x, dx) :: (l, d) :: ls2).
Proof.
  intros Hls Hfresh.
  pose proof (lseg_NoDup _ _ Hls) as Hnd.
  pose proof (lseg_fresh _ _ _ Hls Hfresh) as Hnin.
  induction ls1 as [|[l1 d1] ls1 IH]; cbn in *.
  - destruct Hls as [Hx Hls]. apply NoDup_cons in Hnd as [Hx2 Hnd].
    apply not_elem_of_cons in Hnin as [Hlx Hnin].
    rewrite lookup_insert_eq. split; [done|].
    rewrite lookup_insert_ne, lookup_insert_eq by done. split; [done|].
    by do 2 (apply lseg_insert_ne; [done|]).
  - destruct Hls as [Hl1 Hls]. apply NoDup_cons in Hnd as [Hl1' Hnd].
    apply not_elem_of_cons in Hnin as [Hll1 Hnin].
    split; [|by apply IH].
    rewrite !lookup_insert_ne; [|done|].
    + rewrite Hl1. by destruct ls1 as [|[??]?].
    + intros ->. apply Hl1'. rewrite fmap_app. cbn. set_solver.
Qed.

Lemma last_snoc_fst ls l d : fst <$> last (ls ++ [(l, d)]) = Some l.
Proof. by rewrite last_snoc. Qed.

(** The node of [tail] in a non-empty list. *)
Lemma repr_tail_node s ls x dx :
  repr s (ls ++ [(x, dx)]) →
  tail (lst s) = Some x ∧ nodes s !! x = Some (Node dx None).
Proof.
  intros [[_ Hn _ _] Ht]. split.
  - rewrite Ht by (by destruct ls). apply last_snoc_fst.
  - apply lseg_app_r in Hn. by destruct Hn.
Qed.

Lemma insert_after_shape s ls1 x dx ls2 l d :
  repr s (ls1 ++ (x, dx) :: ls2) → nodes s !! l = None →
  ∃ s', ADT_sl_list_insert_after (Some l) (Some x) d s = Ok (0, s') ∧
        head (lst s') = entry (ls1 ++ (x, dx) :: (l, d) :: ls2) ∧
        lseg (nodes s') (ls1 ++ (x, dx) :: (l, d) :: ls2) ∧
        tail (lst s') = fst <$> last (ls1 ++ (x, dx) :: (l, d) :: ls2) ∧
        len (lst s') = uint (len (lst s) + 1) ∧
        keeps_free s s' l.
Proof.
  intros [[Hh Hn Hl Hr] Ht] Hfresh.
  pose proof (lseg_app_r _ _ _ Hn) as Hx. cbn in Hx. destruct Hx as [Hx Hls2].
  pose proof (lseg_NoDup _ _ Hn) as Hnd.
  eexists. split; [by apply (insert_after_eq s l x (Node dx (entry ls2)))|].
  cbn -[uint]. repeat split.
  - rewrite Hh. by destruct ls1 as [|[??]?].
  - by apply lseg_splice.
  - rewrite Ht by (by destruct ls1). destruct ls2 as [|[y dy] ls2].
    + rewrite !last_app. cbn. case_bool_decide; [done | congruence].
    + rewrite !last_app. cbn [last].
      case_bool_decide as Heq; [exfalso|done].
      rewrite fmap_app in Hnd. cbn in Hnd.
      apply NoDup_app in Hnd as (_ & _ & Hnd). apply NoDup_cons in Hnd as [Hx' _].
      apply Hx'. destruct (last (_ :: _)) as [[t dt]|] eqn:El;
        [|by apply last_None in El].
      cbn in Heq. injection Heq as ->. apply last_Some_elem_of in El.
      by apply (list_elem_of_fmap_2 fst) in El.
  - intros l' Hl' Hne. cbn. rewrite !lookup_insert_ne; [done|done|].
    intros ->. congruence.
Qed.

Lemma insert_after_repr s ls1 x dx ls2 l d :
  repr s (ls1 ++ (x, dx) :: ls2) → nodes s !! l = None →
  len (lst s) < UINT_MAX →
  ∃ s', ADT_sl_list_insert_after (Some l) (Some x) d s = Ok (0, s') ∧
        repr s' (ls1 ++ (x, dx) :: (l, d) :: ls2) ∧
        len (lst s') = len (lst s) + 1 ∧ keeps_free s s' l.
Proof.
  intros Hr Hfresh Hlt.
  destruct (insert_after_shape s ls1 x dx ls2 l d Hr Hfresh)
    as (s' & Hrun & Hh & Hn & Ht & Hl & Hk).
  destruct Hr as [[_ _ Hlen Hrange] _].
  assert (uint (len (lst s) + 1) = len (lst s) + 1) as Hu
    by (apply uint_small; lia).
  exists s'. split; [done|]. split; [|split; [congruence | done]].
  split; [split|]; try done.
  - rewrite Hl, Hu, Hlen, !length_app. cbn [length]. lia.
  - revert Hlt. rewrite Hlen, !length_app. cbn [length]. lia.
Qed.

Lemma append_repr s ls l d :
  repr s ls → nodes s !! l = None → Z.of_nat (length ls) < UINT_MAX →
  ∃ s', ADT_sl_list_append (Some l) d s = Ok (0, s') ∧
        repr s' (ls ++ [(l, d)]) ∧ keeps_free s s' l.
Proof.
  intros Hr Hfresh Hlt. destruct ls as [|x0 ls0] using rev_ind.
  - destruct (push_repr s [] l d Hr Hfresh Hlt) as (s' & Hp & Hr' & Hk).
    exists s'. split; [|done]. destruct Hr as [[_ _ Hl _] _].
    by rewrite append_empty_eq, Hp.
  - clear IHls0. destruct x0 as [t dt].
    destruct (repr_tail_node _ _ _ _ Hr) as [Ht Hnt].
    pose proof Hr as [[Hh Hn Hl Hrange] _].
    assert (len (lst s) ≠ 0) as Hne
      by (rewrite Hl, length_app; cbn [length]; lia).
    rewrite (append_eq s l d t (Node dt None)) by done.
    destruct (insert_after_repr s ls0 t dt [] l d Hr Hfresh ltac:(lia))
      as (s' & Hrun & Hr' & Hl' & Hk).
    rewrite (insert_after_eq s l t (Node dt None)) in Hrun by done.
    rewrite Ht, bool_decide_eq_true_2 in Hrun by done.
    cbn -[uint] in Hrun. exists s'. split; [done|]. split; [|done].
    by rewrite <- app_assoc.
Qed.

(** Unlinking the node [y] that follows [x] in a chain. *)
Lemma lseg_unsplice h ls1 x dx y dy ls2 :
  lseg h (ls1 ++ (x, dx) :: (y, dy) :: ls2) →
  lseg (delete y (<[x := Node dx (entry ls2)]> h)) (ls1 ++ (x, dx) :: ls2).
Proof.
  intros Hls. pose proof (lseg_NoDup _ _ Hls) as Hnd.
  induction ls1 as [|[l1 d1] ls1 IH]; cbn in *.
  - destruct Hls as (Hx & Hy & Hls). apply NoDup_cons in Hnd as [Hx2 Hnd].
    apply NoDup_cons in Hnd as [Hy2 Hnd].
    apply not_elem_of_cons in Hx2 as [Hxy Hx2].
    rewrite lookup_delete_ne, lookup_insert_eq by done. split; [done|].
    apply lseg_delete_ne; [done|]. by apply lseg_insert_ne.
  - destruct Hls as [Hl1 Hls]. apply NoDup_cons in Hnd as [Hl1' Hnd].
    split; [|by apply IH].
    rewrite fmap_app in Hl1'. cbn in Hl1'.
    apply not_elem_of_app in Hl1' as [_ Hl1'].
    apply not_elem_of_cons in Hl1' as [Hne1 Hl1'].
    apply not_elem_of_cons in Hl1' as [Hne2 _].
    rewrite lookup_delete_ne, lookup_insert_ne by done.
    rewrite Hl1. by destruct ls1 as [|[??]?].
Qed.

(** [remove_after] at a node [x] that is followed by [y]: the chain loses
    [y], the count goes down by one, and [tail] is not touched, also when
    [y] was the tail. *)
Lemma remove_after_chain s ls1 x dx y dy ls2 :
  repr s (ls1 ++ (x, dx) :: (y, dy) :: ls2) →
  ∃ s', ADT_sl_list_remove_after (Some x) s = Ok (dy, s') ∧
        chain s' (ls1 ++ (x, dx) :: ls2) ∧
        tail (lst s') = tail (lst s) ∧
        nodes s' !! y = None.
Proof.
  intros [[Hh Hn Hl Hr] Ht].
  pose proof (lseg_app_r _ _ _ Hn) as Hx. cbn in Hx. destruct Hx as (Hx & Hy & _).
  pose proof (lseg_NoDup _ _ Hn) as Hnd.
  assert (Some x ≠ tail (lst s)) as Hne.
  { rewrite Ht by (by destruct ls1). rewrite last_app. cbn [last].
    rewrite fmap_app in Hnd. apply NoDup_app in Hnd as (_ & _ & Hnd). cbn in Hnd.
    apply NoDup_cons in Hnd as [Hx' _].
    destruct (last ((y, dy) :: ls2)) as [[t dt]|] eqn:El;
      [|by apply last_None in El].
    cbn. intros [= ->]. apply Hx'. apply last_Some_elem_of in El.
    by apply (list_elem_of_fmap_2 fst) in El. }
  pose proof (remove_after_eq s x _ y _ Hne Hx eq_refl Hy) as Hrun.
  cbn -[uint] in Hrun. eexists. split; [exact Hrun|].
  cbn -[uint]. split; [split|]; cbn -[uint].
  - rewrite Hh. by destruct ls1 as [|[??]?].
  - by apply (lseg_unsplice _ _ _ _ _ dy).
  - revert Hl Hr. rewrite !length_app. cbn [length]. intros Hl Hr.
    rewrite uint_small by lia. lia.
  - revert Hr. rewrite !length_app. cbn [length]. lia.
  - split; [done|]. apply lookup_delete_eq.
Qed.

Lemma chain_nil_len s : chain s [] → len (lst s) = 0.
Proof. by intros [_ _ Hl _]. Qed.

Lemma chain_empty_head s ls : chain s ls → len (lst s) = 0 → head (lst s) = None.
Proof.
  intros [Hh _ Hl _] H0. rewrite Hh. destruct ls; [done|].
  rewrite Hl in H0. cbn [length] in H0. lia.
Qed.

(** The invariants of the specification, read off [repr]. *)
Lemma repr_invariants s ls :
  repr s ls →
  contents s = Some ls.*2 ∧
  len (lst s) = Z.of_nat (length ls) ∧
  (len (lst s) = 0 → head (lst s) = None) ∧
  (len (lst s) = 1 → head (lst s) = tail (lst s)) ∧
  (len (lst s) ≠ 0 →
   ∃ t d, tail (lst s) = Some t ∧ nodes s !! t = Some (Node d None) ∧
          ls !! Z.to_nat (len (lst s) - 1) = Some (t, d)).
Proof.
  intros Hr. pose proof (repr_chain _ _ Hr) as Hc.
  pose proof (chain_len _ _ Hc) as Hl.
  split; [by apply chain_contents|]. split; [done|].
  split; [by apply (chain_empty_head _ ls)|]. split.
  - intros H1. rewrite (repr_tail _ _ Hr), (chain_head _ _ Hc);
      destruct ls as [|[l d] [|??]]; cbn [length] in *; (done || lia).
  - intros Hne. destruct ls as [|x0 ls0 _] using rev_ind; [done|].
    destruct x0 as [t d]. destruct (repr_tail_node _ _ _ _ Hr) as [Ht Hn].
    exists t, d. split; [done|]. split; [done|].
    rewrite Hl, length_app. cbn [length].
    replace (Z.to_nat (Z.of_nat (length ls0 + 1) - 1)) with (length ls0) by lia.
    by rewrite lookup_app_r, Nat.sub_diag.
Qed.

(** ** Sequences of calls *)

Lemma each_cons {A} (f : A → M Z) x xs s r s1 rs s2 :
  f x s = Ok (r, s1) → each f xs s1 = Ok (rs, s2) →
  each f (x :: xs) s = Ok (r :: rs, s2).
Proof.
  intros Hx Hxs. cbn. unfold mbind, M_bind. rewrite Hx, Hxs. reflexivity.
Qed.

Lemma each_app {A} (f : A → M Z) xs ys s rs s1 rs' s2 :
  each f xs s = Ok (rs, s1) → each f ys s1 = Ok (rs', s2) →
  each f (xs ++ ys) s = Ok (rs ++ rs', s2).
Proof.
  revert s rs. induction xs as [|x xs IH]; intros s rs; cbn.
  - unfold mret, M_ret. intros [= <- <-]. done.
  - unfold mbind, M_bind. destruct (f x s) as [[r s0]| |]; [|done..].
    destruct (each f xs s0) as [[rs0 s0']| |] eqn:E; [|done..].
    unfold mret, M_ret. intros [= <- <-] Hys.
    by rewrite (IH _ _ E Hys).
Qed.

Lemma pushes_repr xs : ∀ s ls,
  repr s ls → (∀ l, l ∈ xs.*1 → nodes s !! l = None) → NoDup xs.*1 →
  Z.of_nat (length ls) + Z.of_nat (length xs) ≤ UINT_MAX →
  ∃ s', pushes xs s = Ok (replicate (length xs) 0, s') ∧
        repr s' (rev xs ++ ls) ∧
        (∀ l, nodes s !! l = None → l ∉ xs.*1 → nodes s' !! l = None).
Proof.
  induction xs as [|[x d] xs IH]; intros s ls Hr Hfresh Hnd Hlen.
  - exists s. split; [done|]. split; [done|]. by intros.
  - cbn [length] in Hlen. cbn in Hnd. apply NoDup_cons in Hnd as [Hx Hnd].
    destruct (push_repr s ls x d Hr) as (s1 & Hp & Hr1 & Hk1);
      [apply Hfresh; by left | lia |].
    destruct (IH s1 ((x, d) :: ls) Hr1) as (s2 & Hp2 & Hr2 & Hk2).
    + intros l Hl. apply Hk1; [apply Hfresh; by right|].
      intros ->. done.
    + done.
    + cbn [length]. lia.
    + exists s2. split; [|split].
      * by apply (each_cons _ (x, d) xs s 0 s1).
      * cbn [rev]. by rewrite <- app_assoc.
      * intros l Hl Hnin. cbn in Hnin. apply not_elem_of_cons in Hnin as [? ?].
        apply Hk2; [by apply Hk1 | done].
Qed.

Lemma appends_repr xs : ∀ s ls,
  repr s ls → (∀ l, l ∈ xs.*1 → nodes s !! l = None) → NoDup xs.*1 →
  Z.of_nat (length ls) + Z.of_nat (length xs) ≤ UINT_MAX →
  ∃ s', appends xs s = Ok (replicate (length xs) 0, s') ∧
        repr s' (ls ++ xs) ∧
        (∀ l, nodes s !! l = None → l ∉ xs.*1 → nodes s' !! l = None).
Proof.
  induction xs as [|[x d] xs IH]; intros s ls Hr Hfresh Hnd Hlen.
  - exists s. rewrite app_nil_r. split; [done|]. split; [done|]. by intros.
  - cbn [length] in Hlen. cbn in Hnd. apply NoDup_cons in Hnd as [Hx Hnd].
    destruct (append_repr s ls x d Hr) as (s1 & Hp & Hr1 & Hk1);
      [apply Hfresh; by left | lia |].
    destruct (IH s1 (ls ++ [(x, d)]) Hr1) as (s2 & Hp2 & Hr2 & Hk2).
    + intros l Hl. apply Hk1; [apply Hfresh; by right|].
      intros ->. done.
    + done.
    + rewrite length_app. cbn [length]. lia.
    + exists s2. split; [|split].
      * by apply (each_cons _ (x, d) xs s 0 s1).
      * by rewrite <- app_assoc in Hr2.
      * intros l Hl Hnin. cbn in Hnin. apply not_elem_of_cons in Hnin as [? ?].
        apply Hk2; [by apply Hk1 | done].
Qed.

Lemma init_then {A} (m : M A) s :
  (ADT_sl_list_init;; m) s = m (Mem (nodes s) (List None None 0)).
Proof. reflexivity. Qed.

(** One call more than the count can hold. *)
Lemma pushes_wrap xs x d s :
  (∀ l, l ∈ (xs ++ [(x, d)]).*1 → nodes s !! l = None) →
  NoDup (xs ++ [(x, d)]).*1 → Z.of_nat (length xs) = UINT_MAX →
  ∃ s', (ADT_sl_list_init;; pushes (xs ++ [(x, d)])) s =
          Ok (replicate (length (xs ++ [(x, d)])) 0, s') ∧
        len (lst s') = 0.
Proof.
  intros Hfresh Hnd Hlen. rewrite init_then.
  rewrite fmap_app in Hnd. apply NoDup_app in Hnd as (Hnd & Hnin & _).
  destruct (pushes_repr xs _ [] (init_repr s)) as (s1 & Hp & Hr & Hk).
  { intros l Hl. apply Hfresh. rewrite fmap_app. apply elem_of_app. by left. }
  { done. }
  { cbn [length]. lia. }
  eexists. split.
  - rewrite length_app, replicate_add. eapply each_app; [exact Hp|].
    eapply each_cons; [apply push_eq | reflexivity].
  - cbn -[uint]. destruct Hr as [[_ _ Hl _] _]. rewrite Hl, app_nil_r, length_rev, Hlen.
    reflexivity.
Qed.

Lemma appends_wrap xs x d s :
  (∀ l, l ∈ (xs ++ [(x, d)]).*1 → nodes s !! l = None) →
  NoDup (xs ++ [(x, d)]).*1 → Z.of_nat (length xs) = UINT_MAX →
  ∃ s', (ADT_sl_list_init;; appends (xs ++ [(x, d)])) s =
          Ok (replicate (length (xs ++ [(x, d)])) 0, s') ∧
        len (lst s') = 0.
Proof.
  intros Hfresh Hnd Hlen. rewrite init_then.
  rewrite fmap_app in Hnd. apply NoDup_app in Hnd as (Hnd & Hnin & _).
  destruct (appends_repr xs _ [] (init_repr s)) as (s1 & Hp & Hr & Hk).
  { intros l Hl. apply Hfresh. rewrite fmap_app. apply elem_of_app. by left. }
  { done. }
  { cbn [length]. lia. }
  cbn [app] in Hr.
  assert (xs ≠ []) as Hne by (intros ->; cbn in Hlen; unfold UINT_MAX in Hlen; lia).
  destruct xs as [|x0 xs0 _] using rev_ind; [done|]. destruct x0 as [t dt].
  destruct (repr_tail_node _ _ _ _ Hr) as [Ht Hnt].
  pose proof Hr as [[_ _ Hl _] _].
  eexists. split.
  - rewrite (length_app _ [_]), replicate_add. eapply each_app; [exact Hp|].
    eapply each_cons; [|reflexivity]. cbn [fst snd].
    apply (append_eq s1 x d t (Node dt None)); [|done|done|].
    + rewrite Hl, Hlen. done.
    + apply Hk; [|intros Hin; apply (Hnin x Hin); by left].
      apply Hfresh. rewrite fmap_app. apply elem_of_app. right. by left.
  - cbn -[uint]. rewrite Hl, Hlen. reflexivity.
Qed.

(** ** Lists in memory *)

Lemma heap_of_fresh ls l : l ∉ ls.*1 → heap_of ls !! l = None.
Proof.
  induction ls as [|[x d] ls IH]; cbn; [done|].
  intros Hnin. apply not_elem_of_cons in Hnin as [Hne Hnin].
  rewrite lookup_insert_ne by done. by apply IH.
Qed.

Lemma heap_of_lseg ls : NoDup ls.*1 → lseg (heap_of ls) ls.
Proof.
  induction ls as [|[x d] ls IH]; cbn; [done|].
  intros Hnd. apply NoDup_cons in Hnd as [Hx Hnd].
  split; [apply lookup_insert_eq|]. apply lseg_insert_ne; [done | by apply IH].
Qed.

Lemma list_of_repr ls :
  NoDup ls.*1 → Z.of_nat (length ls) ≤ UINT_MAX → repr (list_of ls) ls.
Proof.
  intros Hnd Hlen. split; [split|]; cbn; try done. by apply heap_of_lseg.
Qed.

Lemma numbered_length n d : length (numbered n d) = n.
Proof. unfold numbered. by rewrite length_fmap, length_seq. Qed.

Lemma numbered_fst n d : (numbered n d).*1 = Pos.of_succ_nat <$> seq 0 n.
Proof. unfold numbered. rewrite <- list_fmap_compose. done. Qed.

Lemma numbered_NoDup n d : NoDup (numbered n d).*1.
Proof.
  rewrite numbered_fst. apply NoDup_fmap_2; [|apply NoDup_seq].
  intros i j Hij. by apply SuccNat2Pos.inj.
Qed.

Lemma numbered_S n d :
  numbered (S n) d = numbered n d ++ [(Pos.of_succ_nat n, d)].
Proof. unfold numbered. by rewrite seq_S, fmap_app. Qed.

Lemma numbered_fresh n d : Pos.of_succ_nat n ∉ (numbered n d).*1.
Proof.
  pose proof (numbered_NoDup (S n) d) as Hnd.
  rewrite numbered_S, fmap_app in Hnd. apply NoDup_app in Hnd as (_ & Hnin & _).
  intros Hin. apply (Hnin _ Hin). by left.
Qed.

(** ** destroy *)

Lemma destroy_loop_chain {W} (destroy : D → W → W) ls : ∀ fuel s w,
  chain s ls → (length ls ≤ fuel)%nat →
  ∃ s', destroy_loop destroy fuel s w =
          Some (Ok (s', foldl (λ w d, destroy d w) w ls.*2)) ∧
        len (lst s') = 0 ∧
        (∀ l, l ∈ ls.*1 → nodes s' !! l = None) ∧
        (∀ l, l ∉ ls.*1 → nodes s' !! l = nodes s !! l).
Proof.
  induction ls as [|[x d] ls IH]; intros fuel s w Hc Hf.
  - exists s. pose proof (chain_nil_len s Hc) as Hl.
    split; [|split; [done|split; [|done]]].
    + destruct fuel; cbn; by rewrite Hl.
    + intros l Hl'. by apply elem_of_nil in Hl'.
  - destruct fuel as [|fuel]; [cbn in Hf; lia|].
    destruct (pop_chain s x d ls Hc) as (s1 & Hp & Hc1 & Hn1 & _ & _).
    destruct (IH fuel s1 (destroy d w) Hc1) as (s2 & Hrun & Hl2 & Hfreed & Hkept);
      [cbn in Hf; lia|].
    pose proof (lseg_NoDup _ _ (chain_nodes _ _ Hc)) as Hnd. cbn in Hnd.
    apply NoDup_cons in Hnd as [Hx _].
    exists s2. split; [|split; [done|split]].
    + cbn. destruct Hc as [_ _ Hl _]. cbn [length] in Hl.
      destruct (Z.eqb_spec (len (lst s)) 0) as [H0|_]; [lia|].
      by rewrite Hp.
    + intros l Hl. cbn in Hl. apply elem_of_cons in Hl as [->|Hl]; [|by apply Hfreed].
      rewrite Hkept, Hn1 by done. apply lookup_delete_eq.
    + intros l Hl. cbn in Hl. apply not_elem_of_cons in Hl as [Hne Hl].
      rewrite Hkept, Hn1 by done. by apply lookup_delete_ne.
Qed.

Lemma destroy_loop_exit {W} (destroy : D → W → W) fuel : ∀ s w s' w',
  destroy_loop destroy fuel s w = Some (Ok (s', w')) → len (lst s') = 0.
Proof.
  induction fuel as [|fuel IH]; intros s w s' w'; cbn.
  - destruct (Z.eqb_spec (len (lst s)) 0); [|done]. by intros [= <- _].
  - destruct (Z.eqb_spec (len (lst s)) 0); [by intros [= <- _]|].
    destruct (ADT_sl_list_pop s) as [[d s1]| |]; [apply IH | done..].
Qed.

Lemma destroy_exit {W} (destroy : D → W → W) fuel s w s' w' :
  ADT_sl_list_destroy destroy fuel s w = Some (Ok (s', w')) →
  len (lst s') = 0 ∧ head (lst s') = None ∧ tail (lst s') = None.
Proof.
  unfold ADT_sl_list_destroy.
  destruct (destroy_loop destroy fuel s w) as [[[s1 w1]| |]|] eqn:E; [|done..].
  apply destroy_loop_exit in E. cbn. intros [= <- _]. by cbn.
Qed.

Lemma state_after_Ok {A W} (r : outcome (A * mem)) (w : W) s' w' :
  state_after r w = Some (Ok (s', w')) → ∃ a, r = Ok (a, s').
Proof. destruct r as [[a s1]| |]; cbn; [|done..]. intros [= <- _]. by exists a. Qed.

Lemma member_split p ls :
  member p ls → ∃ ls1 x dx ls2, p = Some x ∧ ls = ls1 ++ (x, dx) :: ls2.
Proof.
  destruct p as [x|]; [|done]. cbn. intros Hin.
  apply list_elem_of_fmap in Hin as ([x' dx] & Heq & Hin). cbn in Heq. subst x'.
  apply list_elem_of_split in Hin as (ls1 & ls2 & ->). by exists ls1, x, dx, ls2.
Qed.

Lemma uint_pred_zero z : 0 ≤ z ≤ UINT_MAX → uint (z - 1) = 0 → z = 1.
Proof.
  intros Hz. destruct (decide (z = 0)) as [->|Hne]; [done|].
  rewrite uint_small by lia. lia.
Qed.

End Facts.

(** * The claims of the specification *)

(** ** The list of [UINT_MAX] nodes *)

Lemma full_count_eq : Z.of_nat full_count = UINT_MAX.
Proof. apply Z2Nat.id. discriminate. Qed.

#[local] Opaque full_count.

Lemma full_len : len (lst full) = UINT_MAX.
Proof.
  unfold full, list_of, full_nodes. cbn [lst len].
  rewrite numbered_length. apply full_count_eq.
Qed.

Lemma full_repr : repr full full_nodes.
Proof.
  apply list_of_repr; [apply numbered_NoDup|].
  unfold full_nodes. rewrite numbered_length, full_count_eq. done.
Qed.

Lemma spare_fresh : nodes full !! spare = None.
Proof. apply heap_of_fresh, numbered_fresh. Qed.

Lemma full_first : ∃ rest, full_nodes = (1%positive, "a"%char) :: rest.
Proof.
  unfold full_nodes. pose proof full_count_eq as Hn.
  destruct full_count as [|k]; [discriminate|].
  unfold numbered. cbn [seq fmap list_fmap Pos.of_succ_nat]. eauto.
Qed.

Lemma too_many_length : Z.of_nat (length too_many) = UINT_MAX + 1.
Proof.
  unfold too_many. rewrite numbered_length, Nat2Z.inj_succ, full_count_eq. done.
Qed.

(** ** C1: the value [append] returns *)

(** C1.  The specification has [append] report an allocation failure on
    every list, the empty one included.  On the empty list [append] calls
    [push] and drops its result: when [malloc] fails there, [push] returns
    -1 and leaves the list alone, and [append] returns 0. *)
Theorem append_empty_drops_malloc_failure :
  ADT_sl_list_push None "a"%char empty = Ok (-1, empty) ∧
  ADT_sl_list_append None "a"%char empty = Ok (0, empty) ∧
  ADT_sl_list_append None "b"%char one = Ok (-1, one).
Proof. repeat split. Qed.

(** ** C3: [remove_after] and [tail] *)

(** C3.  [remove_after] on the node before the tail frees the tail node and
    leaves [tail] pointing to it: in the list a, b the call on the head
    returns b, the only node left is a, and [tail] is the address of the
    freed block, so that the next [append] dereferences freed memory. *)
Theorem remove_after_leaves_tail_dangling :
  repr two [(1%positive, "a"%char); (2%positive, "b"%char)] ∧
  ∃ s', ADT_sl_list_remove_after (Some 1%positive) two = Ok ("b"%char, s') ∧
        head (lst s') = Some 1%positive ∧
        nodes s' !! 1%positive = Some (Node "a"%char None) ∧
        len (lst s') = 1 ∧
        tail (lst s') = Some 2%positive ∧
        nodes s' !! 2%positive = None ∧
        ADT_sl_list_append (Some 3%positive) "c"%char s' = Undef.
Proof.
  split.
  - apply list_of_repr; [|done]. apply (numbered_NoDup 2 "a"%char).
  - eexists. split; [vm_compute; reflexivity|]. by vm_compute.
Qed.

Section Claims.
Context {D : Type}.
Implicit Types (s : @mem D) (ls : list (loc * D)) (l : loc) (d : D).

(** ** C2: the empty list *)

(** C2.  A call that returns, made on a list that satisfies the invariant
    with arguments as list.c requires them (a fresh block from [malloc],
    room in the count for it, a node of the list as position), leaves a
    list in which a zero count implies that [head] is [NULL].  [init] and
    [destroy] leave the count 0 and both [head] and [tail] [NULL]; [pop] on
    a one-element list leaves the count 0 and [head] [NULL] and does not
    touch [tail]. *)
Theorem empty_list_head_absent {W} (c : @call D W) s (w : W) ls s' w' :
  repr s ls → allowed c s ls → exec c s w = Some (Ok (s', w')) →
  (len (lst s') = 0 → head (lst s') = None) ∧
  match c with
  | Init | Destroy _ _ =>
      len (lst s') = 0 ∧ head (lst s') = None ∧ tail (lst s') = None
  | Pop =>
      length ls = 1%nat →
      len (lst s') = 0 ∧ head (lst s') = None ∧ tail (lst s') = tail (lst s)
  | _ => True
  end.
Proof.
  intros Hr Hallowed Hexec. pose proof (repr_chain _ _ Hr) as Hc.
  destruct c as [|destroy fuel|m d| |m d|m p d|p|]; cbn in Hexec, Hallowed.
  - apply state_after_Ok in Hexec as [[] [= <-]]. by cbn.
  - apply destroy_exit in Hexec as (Hl & Hh & Ht). done.
  - apply state_after_Ok in Hexec as [r Hrun]. split; [|done].
    destruct m as [l|]; [|injection Hrun as _ <-; by eapply chain_empty_head].
    destruct Hallowed as [Hfresh Hroom]. cbn in Hfresh, Hroom.
    destruct (push_repr s ls l d Hr Hfresh) as (s1 & Hp & [Hc1 _] & _);
      [by rewrite <- (chain_len _ _ Hc)|].
    rewrite Hp in Hrun. injection Hrun as _ <-. by eapply chain_empty_head.
  - apply state_after_Ok in Hexec as [r Hrun]. destruct ls as [|[l d] ls'].
    + apply chain_nil_len, pop_abort_iff in Hc. congruence.
    + destruct (pop_chain s l d ls' Hc) as (s1 & Hp & Hc1 & _ & Ht & _).
      rewrite Hp in Hrun. injection Hrun as _ <-.
      split; [by eapply chain_empty_head|].
      intros Hlen. destruct ls'; [|done].
      pose proof (chain_nil_len _ Hc1). split; [done|].
      split; [by eapply chain_empty_head | done].
  - apply state_after_Ok in Hexec as [r Hrun]. split; [|done].
    destruct m as [l|].
    + destruct Hallowed as [Hfresh Hroom]. cbn in Hfresh, Hroom.
      destruct (append_repr s ls l d Hr Hfresh) as (s1 & Hp & [Hc1 _] & _);
        [by rewrite <- (chain_len _ _ Hc)|].
      rewrite Hp in Hrun. injection Hrun as _ <-. by eapply chain_empty_head.
    + destruct (decide (len (lst s) = 0)) as [H0|Hne].
      * rewrite append_empty_eq in Hrun by done. cbn in Hrun.
        injection Hrun as _ <-. by eapply chain_empty_head.
      * rewrite append_fail_eq in Hrun by done.
        injection Hrun as _ <-. by eapply chain_empty_head.
  - apply state_after_Ok in Hexec as [r Hrun]. split; [|done].
    destruct Hallowed as (Hfresh & Hroom & Hmem).
    destruct m as [l|]; [|injection Hrun as _ <-; by eapply chain_empty_head].
    cbn in Hfresh, Hroom.
    apply member_split in Hmem as (ls1 & x & dx & ls2 & -> & ->).
    destruct (insert_after_repr s ls1 x dx ls2 l d Hr Hfresh Hroom)
      as (s1 & Hp & [Hc1 _] & _).
    rewrite Hp in Hrun. injection Hrun as _ <-. by eapply chain_empty_head.
  - apply state_after_Ok in Hexec as [r Hrun]. split; [|done].
    apply remove_after_inv in Hrun as (Hne & Hh & _ & Hl).
    intros H0. exfalso. rewrite Hl in H0.
    pose proof (chain_len _ _ Hc) as Hlen. pose proof (chain_range _ _ Hc).
    apply uint_pred_zero in H0; [|lia].
    destruct ls as [|[l d] [|? ?]]; cbn [length] in Hlen; try lia.
    destruct (repr_tail_node s [] l d Hr) as [Ht _].
    cbn in Hallowed. destruct p as [x|]; [|done]. cbn in Hallowed.
    apply list_elem_of_singleton in Hallowed as ->. congruence.
  - injection Hexec as <- _. split; [by eapply chain_empty_head | done].
Qed.

(** ** C4: the contract of [pop] *)

(** C4.  On a list whose nodes from [head] are [ls], [pop] aborts exactly
    when the list is empty; on a non-empty list it returns the data of the
    head node, unlinks and frees that node, and the count goes down by
    one. *)
Theorem pop_contract s ls :
  chain s ls →
  (ADT_sl_list_pop s = Abort ↔ ls = []) ∧
  ∀ l d ls', ls = (l, d) :: ls' →
    ∃ s', ADT_sl_list_pop s = Ok (d, s') ∧
          chain s' ls' ∧
          nodes s' = delete l (nodes s) ∧
          len (lst s') = len (lst s) - 1.
Proof.
  intros Hc. split.
  - rewrite pop_abort_iff. destruct Hc as [_ _ Hl _]. rewrite Hl.
    destruct ls; cbn [length]; split; (done || lia).
  - intros l d ls' ->.
    destruct (pop_chain s l d ls' Hc) as (s' & Hp & Hc' & Hn & _ & Hl).
    by exists s'.
Qed.

(** ** C5: [destroy] *)

(** C5.  On a list of [n] nodes, and with fuel for [n] iterations, [destroy]
    returns; the world is the one obtained by running the destructor on the
    data of the [n] nodes, once each, head to tail; every node is freed, the
    count is 0 and [head] and [tail] are [NULL]. *)
Theorem destroy_spec {W} (destroy : D → W → W) (fuel : nat) s (w : W) ls :
  chain s ls → (length ls ≤ fuel)%nat →
  ∃ s', ADT_sl_list_destroy destroy fuel s w =
          Some (Ok (s', foldl (λ w d, destroy d w) w ls.*2)) ∧
        len (lst s') = 0 ∧ head (lst s') = None ∧ tail (lst s') = None ∧
        ∀ l, l ∈ ls.*1 → nodes s' !! l = None.
Proof.
  intros Hc Hf.
  destruct (destroy_loop_chain destroy ls fuel s w Hc Hf)
    as (s1 & Hrun & Hl & Hfreed & _).
  unfold ADT_sl_list_destroy. rewrite Hrun. cbn. eexists. split; [done|].
  cbn. by repeat split.
Qed.

(** ** C6: pushes *)

(** C6.  From an initialised list, a run of at most [UINT_MAX] pushes, each
    with a fresh block from [malloc], returns 0 every time and leaves the
    pushed data in reverse order of insertion, head to tail, with the count
    equal to the number of pushes and [tail] at the node pushed first. *)
Theorem pushes_from_init s0 (xs : list (loc * D)) :
  (∀ l, l ∈ xs.*1 → nodes s0 !! l = None) → NoDup xs.*1 →
  Z.of_nat (length xs) ≤ UINT_MAX →
  ∃ s', (ADT_sl_list_init;; pushes xs) s0 = Ok (replicate (length xs) 0, s') ∧
        repr s' (rev xs) ∧
        contents s' = Some (rev xs.*2) ∧
        len (lst s') = Z.of_nat (length xs).
Proof.
  intros Hfresh Hnd Hlen. rewrite init_then.
  destruct (pushes_repr xs _ [] (init_repr s0) Hfresh Hnd) as (s' & Hp & Hr & _);
    [cbn [length]; lia|].
  rewrite app_nil_r in Hr. exists s'. split; [done|]. split; [done|].
  destruct Hr as [Hc _]. split.
  - by rewrite (chain_contents _ _ Hc), fmap_rev.
  - by rewrite (chain_len _ _ Hc), length_rev.
Qed.

(** ** C7: appends *)

(** C7.  From an initialised list, a run of at most [UINT_MAX] appends, each
    with a fresh block from [malloc], returns 0 every time and leaves the
    appended data in insertion order, head to tail, with the count equal to
    the number of appends. *)
Theorem appends_from_init s0 (xs : list (loc * D)) :
  (∀ l, l ∈ xs.*1 → nodes s0 !! l = None) → NoDup xs.*1 →
  Z.of_nat (length xs) ≤ UINT_MAX →
  ∃ s', (ADT_sl_list_init;; appends xs) s0 = Ok (replicate (length xs) 0, s') ∧
        repr s' xs ∧
        contents s' = Some xs.*2 ∧
        len (lst s') = Z.of_nat (length xs).
Proof.
  intros Hfresh Hnd Hlen. rewrite init_then.
  destruct (appends_repr xs _ [] (init_repr s0) Hfresh Hnd) as (s' & Hp & Hr & _);
    [cbn [length]; lia|].
  cbn [app] in Hr. exists s'. split; [done|]. split; [done|].
  destruct Hr as [Hc _]. split.
  - by rewrite (chain_contents _ _ Hc).
  - by rewrite (chain_len _ _ Hc).
Qed.

(** ** C8: push, then pop *)

(** C8.  On a list whose count is below [UINT_MAX], a push of [d] into the
    block [malloc] returned, followed by pop, returns [d]; the count and
    [head] are what they were, and so are the nodes when the block was
    fresh. *)
Theorem push_pop_roundtrip s l d :
  0 ≤ len (lst s) < UINT_MAX →
  ∃ s1 s2, ADT_sl_list_push (Some l) d s = Ok (0, s1) ∧
           ADT_sl_list_pop s1 = Ok (d, s2) ∧
           len (lst s2) = len (lst s) ∧
           head (lst s2) = head (lst s) ∧
           (nodes s !! l = None → nodes s2 = nodes s).
Proof.
  intros Hlen. eexists. eexists. split; [apply push_eq|].
  assert (uint (len (lst s) + 1) = len (lst s) + 1) as Hu
    by (apply uint_small; lia).
  split.
  - rewrite (pop_eq _ l (Node d (head (lst s)))); cbn -[uint].
    + reflexivity.
    + rewrite Hu. lia.
    + done.
    + apply lookup_insert_eq.
  - cbn -[uint]. split; [|split; [done|]].
    + rewrite Hu. replace (len (lst s) + 1 - 1) with (len (lst s)) by lia.
      apply uint_small. lia.
    + intros Hfresh. rewrite delete_insert_eq. by apply delete_id.
Qed.

(** ** C9: [insert_after] *)

(** C9.  On a list that satisfies the invariant and whose count is below
    [UINT_MAX], [insert_after] at a node [x] of the list, with a fresh block
    [l] from [malloc], returns 0 and links the new node holding [d] in
    right after [x]; the count goes up by one, and the new node is the tail
    when [x] was. *)
Theorem insert_after_spec s ls1 x dx ls2 l d :
  repr s (ls1 ++ (x, dx) :: ls2) → nodes s !! l = None →
  len (lst s) < UINT_MAX →
  ∃ s', ADT_sl_list_insert_after (Some l) (Some x) d s = Ok (0, s') ∧
        repr s' (ls1 ++ (x, dx) :: (l, d) :: ls2) ∧
        nodes s' !! x = Some (Node dx (Some l)) ∧
        nodes s' !! l = Some (Node d (entry ls2)) ∧
        len (lst s') = len (lst s) + 1 ∧
        (tail (lst s) = Some x → tail (lst s') = Some l).
Proof.
  intros Hr Hfresh Hroom.
  destruct (insert_after_repr s ls1 x dx ls2 l d Hr Hfresh Hroom)
    as (s' & Hrun & Hr' & Hl & _).
  exists s'. split; [done|]. split; [done|].
  pose proof (chain_nodes _ _ (repr_chain _ _ Hr')) as Hn.
  apply lseg_app_r in Hn. cbn in Hn. destruct Hn as (Hx & Hnew & _).
  split; [done|]. split; [done|]. split; [done|].
  intros Ht.
  pose proof (chain_nodes _ _ (repr_chain _ _ Hr)) as Hn0.
  apply lseg_app_r in Hn0. cbn in Hn0. destruct Hn0 as [Hx0 _].
  rewrite (insert_after_eq s l x _ d Hx0 Hfresh) in Hrun.
  injection Hrun as <-. cbn. by rewrite bool_decide_eq_true_2.
Qed.

(** ** C10: a failed allocation changes nothing *)

(** C10.  When [push] or [insert_after] returns -1, the memory after the
    call is the memory before it: header and nodes are untouched. *)
Theorem alloc_failure_changes_nothing s (m p : ptr) d s' :
  ADT_sl_list_push m d s = Ok (-1, s') ∨
  ADT_sl_list_insert_after m p d s = Ok (-1, s') →
  s' = s.
Proof.
  intros [Hpush|Hins].
  - destruct m as [l|].
    + rewrite push_eq in Hpush. discriminate.
    + by injection Hpush.
  - apply insert_after_ret in Hins as [(_ & _ & ->)|[_ ?]]; done.
Qed.

End Claims.

Lemma pop_contract_witness :
  ADT_sl_list_pop empty = Abort ∧
  ∃ s', ADT_sl_list_pop two = Ok ("a"%char, s') ∧
        chain s' [(2%positive, "b"%char)] ∧
        len (lst s') = 1.
Proof.
  split.
  - apply (pop_contract empty []); [|reflexivity].
    split; [reflexivity | exact I | reflexivity | vm_compute; discriminate].
  - destruct (pop_contract two [(1%positive, "a"%char); (2%positive, "b"%char)])
      as [_ H].
    + split; [reflexivity | | reflexivity | vm_compute; discriminate].
      cbn. repeat split; vm_compute; reflexivity.
    + destruct (H 1%positive "a"%char [(2%positive, "b"%char)] eq_refl)
        as (s' & Hp & Hc & _ & Hl).
      exists s'. repeat split; [exact Hp | apply Hc.. | exact Hl].
Defined.

Lemma destroy_spec_witness :
  ∃ s', ADT_sl_list_destroy (λ c calls, calls ++ [c]) 2 two [] =
          Some (Ok (s', ["a"%char; "b"%char])) ∧
        len (lst s') = 0 ∧ head (lst s') = None ∧ tail (lst s') = None.
Proof.
  destruct (destroy_spec (λ c calls, calls ++ [c]) 2 two []
              [(1%positive, "a"%char); (2%positive, "b"%char)])
    as (s' & Hrun & Hl & Hh & Ht & _).
  - split; [reflexivity | | reflexivity | vm_compute; discriminate].
    cbn. repeat split; vm_compute; reflexivity.
  - cbn. lia.
  - exists s'. repeat split; assumption.
Defined.

Lemma alloc_failure_changes_nothing_witness :
  ADT_sl_list_push None "c"%char two = Ok (-1, two) ∧ two = two.
Proof.
  split; [reflexivity|].
  apply (alloc_failure_changes_nothing two None None "c"%char two).
  left. reflexivity.
Defined.

(** ** Instances and counterexamples *)

(** C2, as stated, fails twice: [pop] on the one-element list leaves the
    count 0 and [tail] at the freed node, and a push on the list of
    [UINT_MAX] nodes wraps the count to 0 with [head] at the new node. *)
Lemma pop_last_keeps_tail :
  (repr one [(1%positive, "a"%char)] ∧
   ∃ s', ADT_sl_list_pop one = Ok ("a"%char, s') ∧
         len (lst s') = 0 ∧
         ¬ (head (lst s') = None ∧ tail (lst s') = None)) ∧
  (repr full full_nodes ∧ nodes full !! spare = None ∧
   ∃ s', ADT_sl_list_push (Some spare) "b"%char full = Ok (0, s') ∧
         len (lst s') = 0 ∧
         ¬ (head (lst s') = None ∧ tail (lst s') = None)).
Proof.
  split.
  - split.
    + apply list_of_repr; [apply (numbered_NoDup 1 "a"%char) | done].
    + eexists. split; [vm_compute; reflexivity|]. split; [reflexivity|].
      intros [_ Ht]. discriminate Ht.
  - split; [apply full_repr|]. split; [apply spare_fresh|].
    eexists. split; [apply push_eq|]. cbn [lst len head tail]. split.
    + rewrite full_len. reflexivity.
    + intros [Hh _]. discriminate Hh.
Qed.

Lemma empty_list_head_absent_witness :
  ∃ s', ADT_sl_list_pop one = Ok ("a"%char, s') ∧
        len (lst s') = 0 ∧ head (lst s') = None ∧
        tail (lst s') = Some 1%positive.
Proof.
  exists (Mem ∅ (List None (Some 1%positive) 0)).
  split; [vm_compute; reflexivity|].
  apply (empty_list_head_absent (W := unit) Pop one tt
           [(1%positive, "a"%char)] _ tt).
  - split; [split|]; [reflexivity | | reflexivity | vm_compute; discriminate |
                      reflexivity].
    cbn. repeat split; vm_compute; reflexivity.
  - exact I.
  - vm_compute. reflexivity.
  - reflexivity.
Defined.

(** C6, as stated, fails at [UINT_MAX + 1] pushes: every push returns 0 and
    the count is 0. *)
Lemma pushes_count_wraps :
  ∃ s', (ADT_sl_list_init;; pushes too_many) empty =
          Ok (replicate (length too_many) 0, s') ∧
        Z.of_nat (length too_many) = UINT_MAX + 1 ∧
        len (lst s') = 0 ∧
        len (lst s') ≠ Z.of_nat (length too_many).
Proof.
  pose proof too_many_length as Hlen. revert Hlen.
  unfold too_many. rewrite numbered_S. intros Hlen.
  destruct (pushes_wrap (numbered full_count "a"%char)
              (Pos.of_succ_nat full_count) "a"%char empty)
    as (s' & Hrun & Hl).
  - intros l _. apply lookup_empty.
  - rewrite <- numbered_S. apply numbered_NoDup.
  - rewrite numbered_length. apply full_count_eq.
  - exists s'. split; [exact Hrun|]. split; [exact Hlen|]. split; [exact Hl|].
    rewrite Hl, Hlen. discriminate.
Qed.

(** The second concrete scenario of the specification: push x, push y. *)
Lemma pushes_from_init_witness :
  ∃ s', (ADT_sl_list_init;;
         pushes [(1%positive, "x"%char); (2%positive, "y"%char)]) empty =
          Ok ([0; 0], s') ∧
        head (lst s') = Some 2%positive ∧
        nodes s' !! 2%positive = Some (Node "y"%char (Some 1%positive)) ∧
        tail (lst s') = Some 1%positive ∧
        nodes s' !! 1%positive = Some (Node "x"%char None) ∧
        contents s' = Some ["y"%char; "x"%char] ∧
        len (lst s') = 2.
Proof.
  destruct (pushes_from_init empty
              [(1%positive, "x"%char); (2%positive, "y"%char)])
    as (s' & Hrun & [[Hh Hn _ _] Ht] & Hc & Hl).
  - intros l _. reflexivity.
  - apply (bool_decide_unpack _). vm_compute. reflexivity.
  - vm_compute. discriminate.
  - exists s'. cbn in Hn. destruct Hn as (H2 & H1 & _).
    repeat split; try assumption. by apply Ht.
Defined.

(** C7, as stated, fails at [UINT_MAX + 1] appends. *)
Lemma appends_count_wraps :
  ∃ s', (ADT_sl_list_init;; appends too_many) empty =
          Ok (replicate (length too_many) 0, s') ∧
        Z.of_nat (length too_many) = UINT_MAX + 1 ∧
        len (lst s') = 0 ∧
        len (lst s') ≠ Z.of_nat (length too_many).
Proof.
  pose proof too_many_length as Hlen. revert Hlen.
  unfold too_many. rewrite numbered_S. intros Hlen.
  destruct (appends_wrap (numbered full_count "a"%char)
              (Pos.of_succ_nat full_count) "a"%char empty)
    as (s' & Hrun & Hl).
  - intros l _. apply lookup_empty.
  - rewrite <- numbered_S. apply numbered_NoDup.
  - rewrite numbered_length. apply full_count_eq.
  - exists s'. split; [exact Hrun|]. split; [exact Hlen|]. split; [exact Hl|].
    rewrite Hl, Hlen. discriminate.
Qed.

(** The appends of the tests and of the first scenario: a, b, c. *)
Lemma appends_from_init_witness :
  ∃ s', (ADT_sl_list_init;;
         appends [(1%positive, "a"%char); (2%positive, "b"%char);
                  (3%positive, "c"%char)]) empty =
          Ok ([0; 0; 0], s') ∧
        contents s' = Some ["a"%char; "b"%char; "c"%char] ∧
        len (lst s') = 3.
Proof.
  destruct (appends_from_init empty
              [(1%positive, "a"%char); (2%positive, "b"%char);
               (3%positive, "c"%char)])
    as (s' & Hrun & _ & Hc & Hl).
  - intros l _. reflexivity.
  - apply (bool_decide_unpack _). vm_compute. reflexivity.
  - vm_compute. discriminate.
  - exists s'. by repeat split.
Defined.

(** C8, as stated, fails on the list of [UINT_MAX] nodes: the push wraps
    the count to 0 and the pop that follows aborts. *)
Lemma push_pop_full_aborts :
  repr full full_nodes ∧ nodes full !! spare = None ∧
  ∃ s1, ADT_sl_list_push (Some spare) "b"%char full = Ok (0, s1) ∧
        ADT_sl_list_pop s1 = Abort.
Proof.
  split; [apply full_repr|]. split; [apply spare_fresh|].
  eexists. split; [apply push_eq|].
  apply pop_abort_iff. cbn [lst len]. rewrite full_len. reflexivity.
Qed.

Lemma push_pop_roundtrip_witness :
  ∃ s1 s2, ADT_sl_list_push (Some 2%positive) "b"%char one = Ok (0, s1) ∧
           ADT_sl_list_pop s1 = Ok ("b"%char, s2) ∧
           len (lst s2) = 1 ∧ nodes s2 = nodes one.
Proof.
  destruct (push_pop_roundtrip one 2%positive "b"%char)
    as (s1 & s2 & Hpush & Hpop & Hl & _ & Hn).
  - vm_compute. split; [discriminate | reflexivity].
  - exists s1, s2. repeat split; try assumption. apply Hn. reflexivity.
Defined.

(** C9, as stated, fails on the list of [UINT_MAX] nodes: the insertion
    after its first node leaves the count at 0. *)
Lemma insert_after_full_wraps :
  repr full full_nodes ∧ member (Some 1%positive) full_nodes ∧
  nodes full !! spare = None ∧ len (lst full) = UINT_MAX ∧
  ∃ s', ADT_sl_list_insert_after (Some spare) (Some 1%positive) "b"%char full =
          Ok (0, s') ∧
        len (lst s') = 0 ∧ len (lst s') ≠ len (lst full) + 1.
Proof.
  destruct full_first as [rest Hfirst].
  split; [apply full_repr|]. split; [rewrite Hfirst; by left|].
  split; [apply spare_fresh|]. split; [apply full_len|].
  pose proof full_repr as Hr. rewrite Hfirst in Hr.
  destruct (insert_after_shape full [] 1%positive "a"%char rest spare "b"%char
              Hr spare_fresh) as (s' & Hrun & _ & _ & _ & Hl & _).
  exists s'. split; [exact Hrun|]. rewrite Hl, full_len. split; [reflexivity|].
  discriminate.
Qed.

(** [test__ADT_sl_list_insert_after]: push a, then insert b after the head. *)
Lemma insert_after_spec_witness :
  ∃ s', ADT_sl_list_insert_after (Some 2%positive) (Some 1%positive) "b"%char
          one = Ok (0, s') ∧
        nodes s' !! 1%positive = Some (Node "a"%char (Some 2%positive)) ∧
        nodes s' !! 2%positive = Some (Node "b"%char None) ∧
        len (lst s') = 2 ∧ tail (lst s') = Some 2%positive.
Proof.
  destruct (insert_after_spec one [] 1%positive "a"%char [] 2%positive "b"%char)
    as (s' & Hrun & _ & Hx & Hnew & Hl & Ht).
  - split; [split|]; [reflexivity | | reflexivity | vm_compute; discriminate |
                      reflexivity].
    cbn. repeat split; vm_compute; reflexivity.
  - reflexivity.
  - vm_compute. reflexivity.
  - exists s'. repeat split; try assumption. apply Ht. reflexivity.
Defined.

(** * Further properties of list.c *)

Section More.
Context {D : Type}.
Implicit Types (h : gmap loc (@ADT_sl_node D)) (ls : list (loc * D)).
Implicit Types (s : @mem D) (l x y : loc) (d : D) (p m : ptr).

(** ** [remove_after] *)

Lemma remove_after_at_tail s p :
  p = tail (lst s) → ADT_sl_list_remove_after p s = Abort.
Proof.
  intros ->. destruct s as [h [hd tl n]]. run_call.
  by rewrite bool_decide_eq_true_2.
Qed.

(** The node at [x] is not the tail when another node follows it. *)
Lemma repr_not_tail s ls1 x dx y dy ls2 :
  repr s (ls1 ++ (x, dx) :: (y, dy) :: ls2) → Some x ≠ tail (lst s).
Proof.
  intros [[_ Hn _ _] Ht]. pose proof (lseg_NoDup _ _ Hn) as Hnd.
  rewrite Ht by (by destruct ls1). rewrite last_app. cbn [last].
  rewrite fmap_app in Hnd. apply NoDup_app in Hnd as (_ & _ & Hnd). cbn in Hnd.
  apply NoDup_cons in Hnd as [Hx' _].
  destruct (last ((y, dy) :: ls2)) as [[t dt]|] eqn:El;
    [|by apply last_None in El].
  cbn. intros [= ->]. apply Hx'. apply last_Some_elem_of in El.
  by apply (list_elem_of_fmap_2 fst) in El.
Qed.

Lemma remove_after_run s ls1 x dx y dy ls2 :
  repr s (ls1 ++ (x, dx) :: (y, dy) :: ls2) →
  ADT_sl_list_remove_after (Some x) s =
  Ok (dy, Mem (delete y (<[x := Node dx (entry ls2)]> (nodes s)))
              (List (head (lst s)) (tail (lst s)) (len (lst s) - 1))).
Proof.
  intros Hr. pose proof (repr_not_tail _ _ _ _ _ _ _ Hr) as Hne.
  destruct Hr as [[Hh Hn Hl Hr] Ht].
  pose proof (lseg_app_r _ _ _ Hn) as Hx. cbn in Hx. destruct Hx as (Hx & Hy & _).
  pose proof (remove_after_eq s x _ y _ Hne Hx eq_refl Hy) as Hrun.
  cbn -[uint] in Hrun. rewrite Hrun. do 4 f_equal.
  revert Hl Hr. rewrite !length_app. cbn [length]. intros Hl Hr.
  apply uint_small. lia.
Qed.

(** X1.  On a list that satisfies the invariant, [remove_after] at a node
    [x] that is followed by the node [y] returns the data of [y], unlinks
    and frees [y] and nothing else, and takes one off the count; when [y]
    was not the tail the invariant holds again, for the nodes without
    [y]. *)
Theorem remove_after_spec s ls1 x dx y dy ls2 :
  repr s (ls1 ++ (x, dx) :: (y, dy) :: ls2) →
  ∃ s', ADT_sl_list_remove_after (Some x) s = Ok (dy, s') ∧
        chain s' (ls1 ++ (x, dx) :: ls2) ∧
        len (lst s') = len (lst s) - 1 ∧
        nodes s' !! y = None ∧
        (∀ l, l ≠ x → l ≠ y → nodes s' !! l = nodes s !! l) ∧
        (ls2 ≠ [] → repr s' (ls1 ++ (x, dx) :: ls2)).
Proof.
  intros Hr.
  destruct (remove_after_chain s ls1 x dx y dy ls2 Hr)
    as (s' & Hrun & Hc & Ht & Hy).
  pose proof (remove_after_run _ _ _ _ _ _ _ Hr) as Hrun'.
  rewrite Hrun' in Hrun. injection Hrun as <-.
  eexists. split; [exact Hrun'|].
  split; [done|]. split; [done|]. split; [apply lookup_delete_eq|]. split.
  - intros l Hx Hy'. cbn. by rewrite lookup_delete_ne, lookup_insert_ne.
  - intros Hne. split; [done|]. intros _. cbn.
    rewrite (repr_tail _ _ Hr) by (by destruct ls1).
    rewrite !last_app. cbn [last]. by destruct ls2.
Qed.

(** X2.  In every memory, [remove_after] aborts exactly when its position
    is the value of [tail]; this includes the [NULL] position on a list
    whose [tail] is [NULL]. *)
Theorem remove_after_aborts_iff_tail s p :
  ADT_sl_list_remove_after p s = Abort ↔ p = tail (lst s).
Proof.
  split; [|apply remove_after_at_tail].
  destruct s as [h [hd tl n]]. run_call. intros Habort.
  destruct (decide (p = tl)) as [|Hne]; [done|]. exfalso. revert Habort.
  rewrite bool_decide_eq_false_2 by done. cbn -[uint].
  destruct p as [x|]; [|done].
  destruct (h !! x) as [xn|] eqn:Ex; cbn -[uint]; [|done].
  rewrite Ex; cbn -[uint].
  destruct (next xn) as [y|] eqn:En; [|done].
  destruct (h !! y) as [yn|] eqn:Ey; cbn -[uint]; [|done].
  repeat (rewrite ?Ex, ?En, ?Ey; progress cbn -[uint]).
  match goal with
  | |- context [<[x:=?v]> h !! y] => destruct (<[x:=v]> h !! y) as [?|]
  end; by cbn -[uint].
Qed.

(** X3.  On a list that satisfies the invariant and has room in its count,
    [insert_after] at a node [x] with a fresh block, followed by
    [remove_after] at [x], returns the inserted data and leaves the nodes,
    [head] and the count as they were.  [tail] is as it was when [x] was
    not the tail; when it was, [tail] is left at the freed block. *)
Theorem insert_remove_after_roundtrip s ls1 x dx ls2 l d :
  repr s (ls1 ++ (x, dx) :: ls2) → nodes s !! l = None →
  len (lst s) < UINT_MAX →
  ∃ s1 s2, ADT_sl_list_insert_after (Some l) (Some x) d s = Ok (0, s1) ∧
           ADT_sl_list_remove_after (Some x) s1 = Ok (d, s2) ∧
           nodes s2 = nodes s ∧
           head (lst s2) = head (lst s) ∧
           len (lst s2) = len (lst s) ∧
           tail (lst s2) = match ls2 with
                           | [] => Some l
                           | _ :: _ => tail (lst s)
                           end.
Proof.
  intros Hr Hfresh Hroom.
  destruct (insert_after_repr s ls1 x dx ls2 l d Hr Hfresh Hroom)
    as (s1 & Hrun & Hr1 & Hl1 & _).
  pose proof (chain_nodes _ _ (repr_chain _ _ Hr)) as Hn.
  pose proof (lseg_app_r _ _ _ Hn) as Hx. cbn in Hx. destruct Hx as [Hx _].
  pose proof Hrun as Hrun'.
  rewrite (insert_after_eq s l x _ d Hx Hfresh) in Hrun'. injection Hrun' as Hs1.
  exists s1. eexists. split; [done|].
  split; [by apply (remove_after_run s1 ls1 x dx l d ls2)|].
  cbn. rewrite Hl1, <- Hs1. cbn. split; [|split; [done|split; [lia|]]].
  - apply map_eq. intros k. destruct (decide (k = l)) as [->|Hkl].
    + by rewrite lookup_delete_eq.
    + rewrite lookup_delete_ne by done.
      destruct (decide (k = x)) as [->|Hkx].
      * by rewrite lookup_insert_eq.
      * by rewrite !lookup_insert_ne.
  - destruct ls2 as [|[y dy] ls2].
    + destruct (repr_tail_node s ls1 x dx Hr) as [Ht _].
      by rewrite Ht, bool_decide_eq_true_2.
    + rewrite bool_decide_eq_false_2; [done|].
      by apply (repr_not_tail _ _ _ _ _ _ _ Hr).
Qed.

(** ** [append] *)

(** X4.  On a non-empty list that satisfies the invariant, [append] is
    [insert_after] at the tail node: for the same result of [malloc] the
    two calls return the same value and leave the same memory. *)
Theorem append_is_insert_after_tail s ls m d :
  repr s ls → ls ≠ [] → fresh m s →
  ADT_sl_list_append m d s =
  ADT_sl_list_insert_after m (tail (lst s)) d s.
Proof.
  intros Hr Hne Hfresh.
  destruct ls as [|x0 ls0 _] using rev_ind; [done|]. destruct x0 as [t dt].
  destruct (repr_tail_node _ _ _ _ Hr) as [Ht Hnt].
  pose proof (chain_len _ _ (repr_chain _ _ Hr)) as Hl.
  assert (len (lst s) ≠ 0) as Hlen
    by (rewrite Hl, length_app; cbn [length]; lia).
  destruct m as [l|].
  - cbn in Hfresh. rewrite (append_eq s l d t _ Hlen Ht Hnt Hfresh), Ht.
    rewrite (insert_after_eq s l t _ d Hnt Hfresh).
    by rewrite Ht, bool_decide_eq_true_2.
  - by rewrite append_fail_eq.
Qed.

(** X5.  When [append] returns -1, [malloc] had failed, the list was not
    empty, and the memory after the call is the memory before it. *)
Theorem append_failure_changes_nothing s m d s' :
  ADT_sl_list_append m d s = Ok (-1, s') →
  s' = s ∧ m = None ∧ len (lst s) ≠ 0.
Proof.
  destruct (decide (len (lst s) = 0)) as [H0|Hne].
  - rewrite append_empty_eq by done.
    destruct m as [l|]; [by rewrite push_eq|by rewrite push_fail_eq].
  - destruct m as [l|]; [|rewrite append_fail_eq by done; by intros [= <-]].
    destruct s as [h [hd tl n]]. cbn in Hne. run_call.
    destruct (Z.eqb_spec n 0); [done|]. cbn -[uint].
    destruct tl as [t|]; [|done].
    match goal with
    | |- context [<[l:=?v]> h !! t] => destruct (<[l:=v]> h !! t) as [?|]
    end; by cbn -[uint].
Qed.

(** ** Calls against the sequence of nodes *)

Lemma bind_ok {A B} (f : M A) (g : A → M B) s a s1 :
  f s = Ok (a, s1) → (f ≫= g) s = g a s1.
Proof. intros Hf. unfold mbind, M_bind. by rewrite Hf. Qed.

Lemma bind_abort {A B} (f : M A) (g : A → M B) s :
  f s = Abort → (f ≫= g) s = Abort.
Proof. intros Hf. unfold mbind, M_bind. by rewrite Hf. Qed.

Lemma split_first ls x :
  x ∈ ls.*1 → ∃ ls1 dx ls2, ls = ls1 ++ (x, dx) :: ls2 ∧ x ∉ ls1.*1.
Proof.
  induction ls as [|[y dy] ls IH]; cbn; [by intros ?%elem_of_nil|].
  intros Hin. destruct (decide (y = x)) as [->|Hne].
  - exists [], dy, ls. split; [done|]. apply not_elem_of_nil.
  - apply elem_of_cons in Hin as [?|Hin]; [congruence|].
    destruct (IH Hin) as (ls1 & dx & ls2 & -> & Hnin).
    exists ((y, dy) :: ls1), dx, ls2. split; [done|].
    cbn. by apply not_elem_of_cons.
Qed.

Lemma insert_after_seq_split ls1 x dx ls2 (n : loc * D) :
  x ∉ ls1.*1 →
  insert_after_seq x n (ls1 ++ (x, dx) :: ls2) = ls1 ++ (x, dx) :: n :: ls2.
Proof.
  induction ls1 as [|[y dy] ls1 IH]; cbn.
  - intros _. by rewrite decide_True.
  - intros Hnin. apply not_elem_of_cons in Hnin as [Hne Hnin].
    rewrite decide_False by done. by rewrite IH.
Qed.

Lemma remove_after_seq_split ls1 x dx ls2 :
  x ∉ ls1.*1 →
  remove_after_seq x (ls1 ++ (x, dx) :: ls2) =
  match ls2 with
  | [] => None
  | z :: ls2' => Some (z.2, ls1 ++ (x, dx) :: ls2')
  end.
Proof.
  induction ls1 as [|[y dy] ls1 IH]; cbn.
  - intros _. by rewrite decide_True.
  - intros Hnin. apply not_elem_of_cons in Hnin as [Hne Hnin].
    rewrite decide_False by done. rewrite IH by done. by destruct ls2.
Qed.

Lemma owned_free F s ls l :
  owned F s ls → l ∉ ls.*1 → l ∉ F → nodes s !! l = None.
Proof. intros [_ Hfree]. apply Hfree. Qed.

(** One call: it returns what [seq_step] gives, on nodes that the list
    owns again, and aborts where [seq_step] gives nothing. *)
Lemma perform_refines F s ls (o : op) :
  owned F s ls → legal F o ls →
  match seq_step o ls with
  | Some (r, ls') => ∃ s', perform o s = Ok (r, s') ∧ owned F s' ls'
  | None => perform o s = Abort
  end.
Proof.
  intros Ho Hlegal. pose proof Ho as [Hr Hfree].
  pose proof (repr_chain _ _ Hr) as Hc.
  destruct o as [[l|] d| |[l|] d|[l|] x d|x|]; cbn [seq_step perform legal] in *.
  - destruct Hlegal as (Hnin & HF & Hroom).
    destruct (push_repr s ls l d Hr (Hfree l Hnin HF) Hroom)
      as (s' & Hrun & Hr' & Hk).
    exists s'. split; [by rewrite (bind_ok _ _ _ _ _ Hrun)|]. split; [done|].
    intros l' Hl' HF'. cbn in Hl'. apply not_elem_of_cons in Hl' as [Hne Hl'].
    by apply Hk; [apply Hfree|].
  - exists s. by split.
  - destruct ls as [|[l d] ls'].
    + apply bind_abort, pop_abort_iff. by apply chain_nil_len.
    + destruct (pop_chain s l d ls' Hc) as (s' & Hrun & Hc' & Hn & Ht & _).
      exists s'. split; [by rewrite (bind_ok _ _ _ _ _ Hrun)|]. split.
      * split; [done|]. intros Hne. rewrite Ht, (repr_tail _ _ Hr) by done.
        by destruct ls'.
      * intros l' Hl' HF'. rewrite Hn.
        destruct (decide (l' = l)) as [->|Hne]; [apply lookup_delete_eq|].
        rewrite lookup_delete_ne by done. apply Hfree; [|done].
        cbn. by apply not_elem_of_cons.
  - destruct Hlegal as (Hnin & HF & Hroom).
    destruct (append_repr s ls l d Hr (Hfree l Hnin HF) Hroom)
      as (s' & Hrun & Hr' & Hk).
    exists s'. split; [by rewrite (bind_ok _ _ _ _ _ Hrun)|]. split; [done|].
    intros l' Hl' HF'. rewrite fmap_app in Hl'. cbn in Hl'.
    apply not_elem_of_app in Hl' as [Hl' Hne].
    apply not_elem_of_cons in Hne as [Hne _].
    by apply Hk; [apply Hfree|].
  - exists s. split; [|done]. destruct ls as [|y ls'].
    + rewrite (bind_ok _ _ _ 0 s); [done|].
      rewrite append_empty_eq by (by apply chain_nil_len). done.
    + rewrite (bind_ok _ _ _ (-1) s); [done|].
      apply append_fail_eq. rewrite (chain_len _ _ Hc). cbn [length]. lia.
  - destruct Hlegal as ((Hnin & HF & Hroom) & Hx).
    destruct (split_first ls x Hx) as (ls1 & dx & ls2 & -> & Hx1).
    rewrite <- (chain_len _ _ Hc) in Hroom.
    destruct (insert_after_repr s ls1 x dx ls2 l d Hr (Hfree l Hnin HF) Hroom)
      as (s' & Hrun & Hr' & _ & Hk).
    rewrite insert_after_seq_split by done.
    exists s'. split; [by rewrite (bind_ok _ _ _ _ _ Hrun)|]. split; [done|].
    intros l' Hl' HF'. apply Hk.
    + apply Hfree; [|done]. intros Hin. apply Hl'. revert Hin.
      rewrite !fmap_app. cbn. rewrite !elem_of_app, !elem_of_cons. tauto.
    + intros ->. apply Hl'. rewrite fmap_app. cbn.
      rewrite elem_of_app, !elem_of_cons. tauto.
  - exists s. by split.
  - destruct Hlegal as [Hx Hlast].
    destruct (split_first ls x Hx) as (ls1 & dx & ls2 & -> & Hx1).
    rewrite remove_after_seq_split in Hlast |- * by done.
    destruct ls2 as [|[y dy] ls2].
    + apply bind_abort, remove_after_at_tail.
      by destruct (repr_tail_node s ls1 x dx Hr) as [-> _].
    + cbn [snd]. pose proof (remove_after_run _ _ _ _ _ _ _ Hr) as Hrun.
      destruct (remove_after_chain s ls1 x dx y dy ls2 Hr)
        as (s' & Hrun' & Hc' & Ht & _).
      rewrite Hrun in Hrun'. injection Hrun' as Hs'.
      exists s'. split; [by rewrite (bind_ok _ _ _ _ _ Hrun), Hs'|]. split.
      * split; [done|]. intros _. by rewrite Ht, (repr_tail _ _ Hr), Hlast
          by (by destruct ls1).
      * intros l' Hl' HF'. rewrite <- Hs'. cbn.
        destruct (decide (l' = y)) as [->|Hne]; [apply lookup_delete_eq|].
        rewrite lookup_delete_ne by done.
        assert (l' ≠ x) as Hne'.
        { intros ->. apply Hl'. rewrite fmap_app. cbn.
          rewrite elem_of_app, elem_of_cons. tauto. }
        rewrite lookup_insert_ne by done. apply Hfree; [|done].
        intros Hin. apply Hl'. revert Hin.
        rewrite !fmap_app. cbn. rewrite !elem_of_app, !elem_of_cons. tauto.
  - exists s. split; [|done].
    rewrite (bind_ok _ _ _ (len (lst s)) s) by done.
    by rewrite (chain_len _ _ Hc).
Qed.

Lemma perform_all_refines F (os : list op) : ∀ s ls,
  owned F s ls → legal_all F os ls →
  match seq_steps os ls with
  | Some (rs, ls') => ∃ s', perform_all os s = Ok (rs, s') ∧ owned F s' ls'
  | None => perform_all os s = Abort
  end.
Proof.
  induction os as [|o os IH]; intros s ls Ho Hlegal; cbn [seq_steps perform_all].
  - by exists s.
  - destruct Hlegal as [Hlegal Hrest].
    pose proof (perform_refines F s ls o Ho Hlegal) as Hstep.
    destruct (seq_step o ls) as [[r ls1]|]; [|by apply bind_abort].
    destruct Hstep as (s1 & Hrun & Ho1).
    rewrite (bind_ok _ _ _ _ _ Hrun).
    specialize (IH s1 ls1 Ho1 Hrest).
    destruct (seq_steps os ls1) as [[rs ls2]|]; [|by apply bind_abort].
    destruct IH as (s2 & Hrun2 & Ho2).
    exists s2. by rewrite (bind_ok _ _ _ _ _ Hrun2).
Qed.

(** X6.  A run of calls to [push], [pop], [append], [insert_after],
    [remove_after] and [length] on a list that owns its nodes, with blocks
    from [malloc] that are free (or [NULL]), positions that are nodes of
    the list, and no [remove_after] that takes out the tail node: the calls
    return what the same operations on the plain sequence of nodes give,
    the invariant holds after them for that sequence, and the run aborts
    exactly where the sequence has nothing to pop or to remove. *)
Theorem calls_refine_sequence F (os : list op) s ls :
  owned F s ls → legal_all F os ls →
  match seq_steps os ls with
  | Some (rs, ls') => ∃ s', perform_all os s = Ok (rs, s') ∧ owned F s' ls'
  | None => perform_all os s = Abort
  end.
Proof. apply perform_all_refines. Qed.

(** ** Stack and queue use *)





(** ** [destroy], continued *)

(** X8.  On a list of [n] nodes, with fuel for [n] iterations, [destroy]
    frees the nodes of the list and no others: every other node is left as
    it was, and when the list's nodes were the only ones allocated the heap
    is empty afterwards. *)
Theorem destroy_frees_only_the_list {W} (destroy : D → W → W) (fuel : nat)
  s (w : W) ls :
  chain s ls → (length ls ≤ fuel)%nat →
  ∃ s' w', ADT_sl_list_destroy destroy fuel s w = Some (Ok (s', w')) ∧
           (∀ l, l ∈ ls.*1 → nodes s' !! l = None) ∧
           (∀ l, l ∉ ls.*1 → nodes s' !! l = nodes s !! l) ∧
           ((∀ l, l ∉ ls.*1 → nodes s !! l = None) → nodes s' = ∅).
Proof.
  intros Hc Hf.
  destruct (destroy_loop_chain destroy ls fuel s w Hc Hf)
    as (s1 & Hrun & _ & Hfreed & Hkept).
  unfold ADT_sl_list_destroy. rewrite Hrun. cbn. eexists _, _.
  split; [done|]. cbn. split; [done|]. split; [done|].
  intros Honly. apply map_eq. intros l. rewrite lookup_empty.
  destruct (decide (l ∈ ls.*1)) as [Hin|Hnin]; [by apply Hfreed|].
  rewrite Hkept by done. by apply Honly.
Qed.

(** X9.  After a [destroy] that returned, the header is the one [init]
    writes, so the list can be used again without another [init]; and a
    second [destroy], with any destructor and any fuel, changes nothing
    and does not call its destructor. *)
Theorem destroy_twice {W} (destroy destroy2 : D → W → W) (fuel fuel2 : nat)
  s (w w2 : W) s' w' :
  ADT_sl_list_destroy destroy fuel s w = Some (Ok (s', w')) →
  ADT_sl_list_init s' = Ok (tt, s') ∧
  ADT_sl_list_destroy destroy2 fuel2 s' w2 = Some (Ok (s', w2)).
Proof.
  unfold ADT_sl_list_destroy.
  destruct (destroy_loop destroy fuel s w) as [[[s1 w1]| |]|] eqn:E; [|done..].
  apply destroy_loop_exit in E. cbn. intros [= <- _]. rewrite E. split.
  - reflexivity.
  - by destruct fuel2.
Qed.

Lemma pop_len s d s1 :
  ADT_sl_list_pop s = Ok (d, s1) →
  len (lst s) ≠ 0 ∧ len (lst s1) = uint (len (lst s) - 1).
Proof.
  destruct s as [h [hd tl n]]. run_call.
  destruct (Z.eqb_spec n 0) as [->|Hn]; [done|]. cbn -[uint].
  destruct hd as [l|]; [|done].
  destruct (h !! l) as [nd|] eqn:E; cbn -[uint]; [|done].
  rewrite E. cbn -[uint]. rewrite E. cbn -[uint]. by intros [= _ <-].
Qed.

(** X10.  The loop of [destroy] ends: in every memory whose count is a
    value of [unsigned int], fuel for [len] iterations is enough for
    [destroy] to return or to stop in a failed [pop]; each iteration takes
    one off the count. *)
Theorem destroy_terminates {W} (destroy : D → W → W) (fuel : nat) s (w : W) :
  0 ≤ len (lst s) ≤ UINT_MAX → (Z.to_nat (len (lst s)) ≤ fuel)%nat →
  ADT_sl_list_destroy destroy fuel s w ≠ None.
Proof.
  intros Hrange Hfuel.
  assert (destroy_loop destroy fuel s w ≠ None) as Hloop.
  { revert s w Hrange Hfuel. induction fuel as [|fuel IH]; intros s w Hrange Hfuel.
    - cbn. destruct (Z.eqb_spec (len (lst s)) 0); [done | lia].
    - cbn. destruct (Z.eqb_spec (len (lst s)) 0) as [|Hne]; [done|].
      destruct (ADT_sl_list_pop s) as [[d s1]| |] eqn:Hpop; [|done..].
      apply pop_len in Hpop as [_ Hl].
      rewrite uint_small in Hl by lia. apply IH; lia. }
  unfold ADT_sl_list_destroy.
  by destruct (destroy_loop destroy fuel s w) as [[[s1 w1]| |]|].
Qed.

(** ** Pushes undone by pops *)

Lemma pops_snoc (n : nat) : ∀ s ds s1 d s2,
  pops n s = Ok (ds, s1) → ADT_sl_list_pop s1 = Ok (d, s2) →
  pops (S n) s = Ok (ds ++ [d], s2).
Proof.
  induction n as [|n IH]; intros s ds s1 d s2.
  - intros [= <- <-] Hpop. cbn. by rewrite (bind_ok _ _ _ _ _ Hpop).
  - cbn [pops]. unfold mbind at 1, M_bind at 1.
    destruct (ADT_sl_list_pop s) as [[d0 s0]| |] eqn:Hpop0; [|done..].
    unfold mbind at 1, M_bind at 1.
    destruct (pops n s0) as [[ds0 s0']| |] eqn:Hpops; [|done..].
    intros [= <- <-] Hpop.
    rewrite (bind_ok _ _ _ _ _ Hpop0).
    change (pops (S n) s0 ≫= (λ ds, mret (d0 :: ds))) with
      ((pops (S n) ≫= (λ ds, mret (d0 :: ds))) : M (list D)).
    by rewrite (bind_ok _ _ _ _ _ (IH _ _ _ _ _ Hpops Hpop)).
Qed.

Lemma pushes_pops (xs : list (loc * D)) : ∀ s ls,
  repr s ls → (∀ l, l ∈ xs.*1 → nodes s !! l = None) → NoDup xs.*1 →
  Z.of_nat (length ls) + Z.of_nat (length xs) ≤ UINT_MAX →
  ∃ s1 s2, pushes xs s = Ok (replicate (length xs) 0, s1) ∧
           pops (length xs) s1 = Ok (rev xs.*2, s2) ∧
           nodes s2 = nodes s ∧ head (lst s2) = head (lst s) ∧
           len (lst s2) = len (lst s) ∧
           tail (lst s2) = match ls, xs with
                           | [], x :: _ => Some x.1
                           | _, _ => tail (lst s)
                           end.
Proof.
  induction xs as [|[x d] xs IH]; intros s ls Hr Hfresh Hnd Hlen.
  - exists s, s. repeat split; try done. by destruct ls.
  - cbn [length] in Hlen. cbn in Hnd. apply NoDup_cons in Hnd as [Hx Hnd].
    assert (nodes s !! x = None) as Hfx by (apply Hfresh; by left).
    destruct (push_repr s ls x d Hr Hfx) as (s1 & Hp & Hr1 & Hk1); [lia|].
    destruct (IH s1 ((x, d) :: ls) Hr1) as (s2 & s3 & Hps & Hpops & Hn & Hh & Hl & Ht).
    { intros l Hl. apply Hk1; [apply Hfresh; by right|]. by intros ->. }
    { done. }
    { cbn [length]. lia. }
    assert (s3 = s1) as ->.
    { destruct s3 as [h3 [hd3 tl3 n3]], s1 as [h1 [hd1 tl1 n1]]. cbn in *.
      destruct xs; congruence. }
    pose proof Hp as Hp'. rewrite push_eq in Hp'. injection Hp' as Hs1.
    pose proof (chain_len _ _ (repr_chain _ _ Hr)) as Hlen0.
    assert (ADT_sl_list_pop s1 =
            Ok (d, Mem (nodes s)
                       (List (head (lst s))
                             (if len (lst s) =? 0 then Some x else tail (lst s))
                             (len (lst s))))) as Hpop.
    { rewrite (pop_eq s1 x (Node d (head (lst s)))); rewrite <- Hs1; cbn -[uint].
      - rewrite delete_insert_eq, delete_id by done.
        rewrite (uint_small (len (lst s) + 1)) by lia.
        replace (len (lst s) + 1 - 1) with (len (lst s)) by lia.
        by rewrite uint_small by lia.
      - rewrite uint_small by lia. lia.
      - done.
      - apply lookup_insert_eq. }
    exists s2. eexists. split; [by apply (each_cons _ (x, d) xs s 0 s1)|].
    split.
    { cbn [length fmap list_fmap rev snd].
      eapply pops_snoc; [exact Hpops | exact Hpop]. }
    cbn. repeat split. rewrite Hlen0. by destruct ls.
Qed.

(** X11.  On a list that satisfies the invariant, pushing [xs] (into fresh
    blocks, with room in the count) and then popping as many times returns
    the pushed data in reverse order and leaves the nodes, [head] and the
    count as they were; the whole memory is as it was when the list was
    not empty, and on an empty list only [tail] differs (it is left at the
    block of the first push). *)
Theorem pushes_pops_restore (xs : list (loc * D)) s ls :
  repr s ls → (∀ l, l ∈ xs.*1 → nodes s !! l = None) → NoDup xs.*1 →
  Z.of_nat (length ls) + Z.of_nat (length xs) ≤ UINT_MAX →
  ∃ s', (pushes xs ≫= λ _, pops (length xs)) s = Ok (rev xs.*2, s') ∧
        nodes s' = nodes s ∧ head (lst s') = head (lst s) ∧
        len (lst s') = len (lst s) ∧
        (ls ≠ [] → s' = s).
Proof.
  intros Hr Hfresh Hnd Hlen.
  destruct (pushes_pops xs s ls Hr Hfresh Hnd Hlen)
    as (s1 & s2 & Hp & Hpops & Hn & Hh & Hl & Ht).
  exists s2. split; [by rewrite (bind_ok _ _ _ _ _ Hp)|].
  split; [done|]. split; [done|]. split; [done|].
  intros Hne. destruct s2 as [h2 [hd2 tl2 n2]], s as [h [hd tl n]]. cbn in *.
  destruct ls; [done|]. congruence.
Qed.

(** ** After [remove_after] has taken out the tail node *)

(** X12.  On a list that satisfies the invariant, [remove_after] at the
    node before the tail frees the tail node [y] and leaves [tail] at [y].
    The next [append] then dereferences the freed block, unless [malloc]
    hands that very block back: in that case [append] returns 0, the new
    node is linked to itself and not into the list, whose data are as
    before, and the count is one more than the number of nodes. *)
Theorem append_after_tail_removed s ls1 x dx y dy d :
  repr s (ls1 ++ [(x, dx); (y, dy)]) →
  ∃ s1, ADT_sl_list_remove_after (Some x) s = Ok (dy, s1) ∧
        tail (lst s1) = Some y ∧ nodes s1 !! y = None ∧
        (∀ l, l ≠ y → ADT_sl_list_append (Some l) d s1 = Undef) ∧
        ∃ s2, ADT_sl_list_append (Some y) d s1 = Ok (0, s2) ∧
              nodes s2 !! y = Some (Node d (Some y)) ∧
              contents s2 = Some (ls1.*2 ++ [dx]) ∧
              len (lst s2) = Z.of_nat (length ls1) + 2.
Proof.
  intros Hr.
  destruct (remove_after_chain s ls1 x dx y dy [] Hr)
    as (s1 & Hrun & Hc1 & Ht & Hy).
  destruct (repr_tail_node s (ls1 ++ [(x, dx)]) y dy) as [Hty _];
    [by rewrite <- app_assoc|].
  rewrite Hty in Ht.
  pose proof (chain_len _ _ Hc1) as Hl1. pose proof (chain_range _ _ Hc1) as Hr1.
  pose proof (chain_len _ _ (repr_chain _ _ Hr)) as Hl.
  pose proof (chain_range _ _ (repr_chain _ _ Hr)) as Hrange.
  rewrite length_app in Hl1, Hr1, Hl, Hrange. cbn [length] in Hl1, Hr1, Hl, Hrange.
  exists s1. split; [done|]. split; [done|]. split; [done|].
  assert (len (lst s1) ≠ 0) as Hne by lia.
  split.
  - intros l Hly. destruct s1 as [h1 [hd1 tl1 n1]]. cbn in *. subst tl1.
    run_call. destruct (Z.eqb_spec n1 0); [done|]. cbn -[uint].
    by rewrite lookup_insert_ne, Hy.
  - destruct s1 as [h1 [hd1 tl1 n1]]. cbn in *. subst tl1.
    eexists. split.
    + run_call. destruct (Z.eqb_spec n1 0); [done|]. cbn -[uint].
      rewrite lookup_insert_eq. reflexivity.
    + cbn -[uint]. split; [apply lookup_insert_eq|].
      assert (uint (n1 + 1) = n1 + 1) as Hu by (apply uint_small; lia).
      split; [|lia].
      unfold contents. cbn -[uint]. rewrite Hu.
      destruct Hc1 as [Hh1 Hn1 _ _]. cbn in Hh1, Hn1. rewrite Hh1.
      assert (y ∉ (ls1 ++ [(x, dx)]).*1) as Hnin by (by eapply lseg_fresh).
      rewrite (walk_lseg _ (ls1 ++ [(x, dx)])).
      * by rewrite fmap_app.
      * by do 2 (apply lseg_insert_ne; [done|]).
      * rewrite length_app. cbn [length]. lia.
Qed.

End More.

(** ** Instances *)

(** Closes a side condition on concrete addresses. *)
Ltac by_evaluation :=
  first [ done
        | apply not_elem_of_empty
        | apply (bool_decide_unpack _); vm_compute; reflexivity ].

Lemma two_repr : repr two [(1%positive, "a"%char); (2%positive, "b"%char)].
Proof. apply list_of_repr; [apply (numbered_NoDup 2 "a"%char) | done]. Qed.

Lemma three_repr :
  repr three [(1%positive, "a"%char); (2%positive, "b"%char);
              (3%positive, "c"%char)].
Proof. apply list_of_repr; [apply (numbered_NoDup 3 "a"%char) | done]. Qed.

Lemma empty_owned : owned ∅ empty [].
Proof. split; [apply (init_repr empty)|]. intros l _ _. apply lookup_empty. Qed.

(** a, b, c: removing after a gives b and leaves a, c. *)
Lemma remove_after_spec_witness :
  ∃ s', ADT_sl_list_remove_after (Some 1%positive) three = Ok ("b"%char, s') ∧
        repr s' [(1%positive, "a"%char); (3%positive, "c"%char)] ∧
        len (lst s') = 2 ∧ nodes s' !! 2%positive = None.
Proof.
  destruct (remove_after_spec three [] 1%positive "a"%char 2%positive "b"%char
              [(3%positive, "c"%char)] three_repr)
    as (s' & Hrun & _ & Hl & Hy & _ & Hr).
  exists s'. split; [exact Hrun|]. split; [by apply Hr|]. by split.
Defined.

Lemma insert_remove_after_roundtrip_witness :
  ∃ s1 s2, ADT_sl_list_insert_after (Some 3%positive) (Some 1%positive)
             "c"%char two = Ok (0, s1) ∧
           ADT_sl_list_remove_after (Some 1%positive) s1 = Ok ("c"%char, s2) ∧
           s2 = two.
Proof.
  destruct (insert_remove_after_roundtrip two [] 1%positive "a"%char
              [(2%positive, "b"%char)] 3%positive "c"%char two_repr)
    as (s1 & s2 & Hins & Hrem & Hn & Hh & Hl & Ht).
  - reflexivity.
  - vm_compute. reflexivity.
  - exists s1, s2. split; [exact Hins|]. split; [exact Hrem|].
    destruct s2 as [h2 [hd2 tl2 n2]]. cbn in Hn, Hh, Hl, Ht. by subst.
Defined.

Lemma append_is_insert_after_tail_witness :
  ADT_sl_list_append (Some 3%positive) "c"%char two =
  ADT_sl_list_insert_after (Some 3%positive) (Some 2%positive) "c"%char two.
Proof.
  apply (append_is_insert_after_tail two
           [(1%positive, "a"%char); (2%positive, "b"%char)]
           (Some 3%positive) "c"%char two_repr); [done | reflexivity].
Defined.

Lemma append_failure_changes_nothing_witness :
  ADT_sl_list_append None "c"%char two = Ok (-1, two) ∧
  len (lst two) ≠ 0.
Proof.
  split; [reflexivity|].
  apply (append_failure_changes_nothing two None "c"%char two). reflexivity.
Defined.

(** Queue and list calls mixed: append a, b, c; insert d after a; length;
    remove after a; pop; length; a push for which [malloc] fails. *)
Lemma calls_refine_sequence_witness :
  ∃ s', perform_all
          [OpAppend (Some 1%positive) "a"%char;
           OpAppend (Some 2%positive) "b"%char;
           OpAppend (Some 3%positive) "c"%char;
           OpInsertAfter (Some 4%positive) 1%positive "d"%char;
           OpLength; OpRemoveAfter 1%positive; OpPop; OpLength;
           OpPush None "e"%char] empty =
        Ok ([RetInt 0; RetInt 0; RetInt 0; RetInt 0; RetInt 4;
             RetData "d"%char; RetData "a"%char; RetInt 2; RetInt (-1)], s') ∧
        owned ∅ s' [(2%positive, "b"%char); (3%positive, "c"%char)].
Proof.
  apply (calls_refine_sequence ∅
           [OpAppend (Some 1%positive) "a"%char;
            OpAppend (Some 2%positive) "b"%char;
            OpAppend (Some 3%positive) "c"%char;
            OpInsertAfter (Some 4%positive) 1%positive "d"%char;
            OpLength; OpRemoveAfter 1%positive; OpPop; OpLength;
            OpPush None "e"%char] empty [] empty_owned).
  cbn. repeat split; by_evaluation.
Defined.


Lemma destroy_frees_only_the_list_witness :
  ∃ s' w', ADT_sl_list_destroy (λ c calls, calls ++ [c]) 2 two [] =
             Some (Ok (s', w')) ∧
           nodes s' = ∅.
Proof.
  destruct (destroy_frees_only_the_list (λ c calls, calls ++ [c]) 2 two []
              [(1%positive, "a"%char); (2%positive, "b"%char)]
              (repr_chain _ _ two_repr))
    as (s' & w' & Hrun & _ & _ & Hempty).
  - cbn. lia.
  - exists s', w'. split; [exact Hrun|]. apply Hempty.
    intros l Hl. apply heap_of_fresh, Hl.
Defined.

Lemma destroy_twice_witness :
  ADT_sl_list_destroy (λ c calls, calls ++ [c]) 0 empty ["a"%char; "b"%char] =
  Some (Ok (empty, ["a"%char; "b"%char])).
Proof.
  apply (destroy_twice (λ c calls, calls ++ [c]) (λ c calls, calls ++ [c])
           2 0 two [] ["a"%char; "b"%char] empty ["a"%char; "b"%char]).
  vm_compute. reflexivity.
Defined.

Lemma destroy_terminates_witness :
  ADT_sl_list_destroy (λ c calls, calls ++ [c]) 2 two [] ≠ None.
Proof.
  apply (destroy_terminates (λ c calls, calls ++ [c]) 2 two []).
  - vm_compute. split; discriminate.
  - vm_compute. lia.
Defined.

Lemma pushes_pops_restore_witness :
  (pushes [(3%positive, "x"%char); (4%positive, "y"%char)] ≫= λ _, pops 2) two =
  Ok (["y"%char; "x"%char], two).
Proof.
  destruct (pushes_pops_restore
              [(3%positive, "x"%char); (4%positive, "y"%char)] two
              [(1%positive, "a"%char); (2%positive, "b"%char)] two_repr)
    as (s' & Hrun & _ & _ & _ & Hs).
  - intros l Hl. apply heap_of_fresh. intros Hin. cbn in Hl, Hin.
    apply elem_of_cons in Hin as [->|Hin];
      [|apply elem_of_cons in Hin as [->|Hin]; [|by apply elem_of_nil in Hin]];
      revert Hl; by_evaluation.
  - apply (bool_decide_unpack _). vm_compute. reflexivity.
  - vm_compute. discriminate.
  - rewrite <- (Hs ltac:(done)) at 2. exact Hrun.
Defined.

(** a, b: removing after a, then an append into another block, and an
    append into the block of b. *)
Lemma append_after_tail_removed_witness :
  ∃ s1, ADT_sl_list_remove_after (Some 1%positive) two = Ok ("b"%char, s1) ∧
        ADT_sl_list_append (Some 3%positive) "c"%char s1 = Undef ∧
        ∃ s2, ADT_sl_list_append (Some 2%positive) "c"%char s1 = Ok (0, s2) ∧
              contents s2 = Some ["a"%char] ∧ len (lst s2) = 2.
Proof.
  destruct (append_after_tail_removed two [] 1%positive "a"%char 2%positive
              "b"%char "c"%char two_repr)
    as (s1 & Hrun & _ & _ & Hundef & s2 & Happ & _ & Hc & Hl).
  exists s1. split; [exact Hrun|]. split; [by apply Hundef|].
  exists s2. by repeat split.
Defined.
